(** * The connector control plane (connectors/byoc.py) and the Jira adapter's
      producer/consumer pipeline (connectors/sources/jira.py)

    Index documents are JSON-like Python values.  Pure accessors are Rocq
    functions, Python exceptions are an error monad, and the mutators that
    talk to the index gateway run in a state-and-error monad over a trace of
    gateway calls.  [copy.deepcopy] is modelled over an explicit object
    store, the Jira pipeline as an interleaving transition system. *)
From stdpp Require Import gmap strings list fin_maps.
From Stdlib Require Import ZArith.

#[local] Set Warnings "-register-all,-clear-no-such-hyp".
#[local] Open Scope string_scope.
#[local] Open Scope list_scope.
#[local] Open Scope Z_scope.

(** ** Python values and the operations the sources apply to them *)
Module Py.

(** JSON-like values: what an index document, a configuration mapping or a
    patch holds.  Dictionaries have string keys. *)
Inductive value :=
| VNone
| VBool (b : bool)
| VInt (z : Z)
| VStr (s : string)
| VList (l : list value)
| VDict (m : gmap string value).

(** Exceptions: the interpreter's own, the classes declared in byoc.py, and
    whatever an external collaborator raises. *)
Inductive exn :=
| KeyError
| IndexError
| TypeError
| AttributeError
| ValueError
| ServiceTypeNotSupportedError (service_type : value)
| ServiceTypeNotConfiguredError
| ConnectorUpdateError
| DataSourceError
| InvalidFilteringError
| External (name : string).

Inductive result (A : Type) :=
| Ok (a : A)
| Err (e : exn).
Arguments Ok {A} a.
Arguments Err {A} e.

#[export] Instance result_ret : MRet result := λ A a, Ok a.
#[export] Instance result_bind : MBind result :=
  λ A B f r, match r with Ok a => f a | Err e => Err e end.
#[export] Instance result_fmap : FMap result :=
  λ A B f r, match r with Ok a => Ok (f a) | Err e => Err e end.

(** [bool(v)] *)
Definition truthy (v : value) : bool :=
  match v with
  | VNone => false
  | VBool b => b
  | VInt z => negb (z =? 0)
  | VStr s => negb (String.eqb s "")
  | VList l => negb (Nat.eqb (length l) 0)
  | VDict m => negb (Nat.eqb (size m) 0)
  end.

(** [v is None] *)
Definition is_None (v : value) : bool :=
  match v with VNone => true | _ => false end.

(** [a == b]; a bool compares as the integer 0 or 1. *)
Fixpoint py_eq (a b : value) {struct a} : bool :=
  match a, b with
  | VNone, VNone => true
  | VBool x, VBool y => Bool.eqb x y
  | VBool x, VInt y => Z.b2z x =? y
  | VInt x, VBool y => x =? Z.b2z y
  | VInt x, VInt y => x =? y
  | VStr x, VStr y => String.eqb x y
  | VList xs, VList ys =>
      (fix go xs ys :=
         match xs, ys with
         | [], [] => true
         | x :: xs, y :: ys => py_eq x y && go xs ys
         | _, _ => false
         end) xs ys
  | VDict m1, VDict m2 =>
      Nat.eqb (size m1) (size m2) &&
      map_fold (λ k v acc,
                acc && match m2 !! k with Some w => py_eq v w | None => false end)
               true m1
  | _, _ => false
  end.

Definition hashable (v : value) : bool :=
  match v with VList _ | VDict _ => false | _ => true end.

(** [needle in hay] for two strings *)
Fixpoint is_substring (needle hay : string) : bool :=
  String.prefix needle hay ||
  match hay with
  | EmptyString => false
  | String _ rest => is_substring needle rest
  end.

(** [x in container] *)
Definition contains (x container : value) : result bool :=
  match container with
  | VDict m =>
      match x with
      | VStr s => Ok (bool_decide (is_Some (m !! s)))
      | _ => if hashable x then Ok false else Err TypeError
      end
  | VList l => Ok (existsb (py_eq x) l)
  | VStr hay =>
      match x with
      | VStr needle => Ok (is_substring needle hay)
      | _ => Err TypeError
      end
  | _ => Err TypeError
  end.

(** Position of a Python index [i] in a sequence of [n] elements. *)
Definition seq_index (n : nat) (i : Z) : option nat :=
  if (0 <=? i) && (i <? Z.of_nat n) then Some (Z.to_nat i)
  else if (i <? 0) && (0 <=? i + Z.of_nat n) then Some (Z.to_nat (i + Z.of_nat n))
  else None.

Definition int_index (k : value) : option Z :=
  match k with
  | VInt i => Some i
  | VBool b => Some (Z.b2z b)
  | _ => None
  end.

(** [container[key]] *)
Definition getitem (container key : value) : result value :=
  match container with
  | VDict m =>
      match key with
      | VStr s => match m !! s with Some v => Ok v | None => Err KeyError end
      | _ => if hashable key then Err KeyError else Err TypeError
      end
  | VList l =>
      match int_index key with
      | Some i =>
          match seq_index (length l) i ≫= (l !!.) with
          | Some v => Ok v
          | None => Err IndexError
          end
      | None => Err TypeError
      end
  | VStr s =>
      match int_index key with
      | Some i =>
          match seq_index (String.length s) i ≫= (λ n, String.get n s) with
          | Some c => Ok (VStr (String c EmptyString))
          | None => Err IndexError
          end
      | None => Err TypeError
      end
  | _ => Err TypeError
  end.

(** [d.get(key, default)]: only a dict has the method; a stored [None] is
    returned as it is. *)
Definition dict_get (d : value) (key : string) (dflt : value) : result value :=
  match d with
  | VDict m => Ok (default dflt (m !! key))
  | _ => Err AttributeError
  end.

End Py.
Export Py.

(** ** The enumerations of byoc.py *)

(** [class Status(Enum)] *)
Inductive Status :=
| CREATED | NEEDS_CONFIGURATION | CONFIGURED | CONNECTED | STATUS_ERROR | STATUS_UNSET.

(** [Status.X.value] *)
Definition Status_value (s : Status) : value :=
  match s with
  | CREATED => VStr "created"
  | NEEDS_CONFIGURATION => VStr "needs_configuration"
  | CONFIGURED => VStr "configured"
  | CONNECTED => VStr "connected"
  | STATUS_ERROR => VStr "error"
  | STATUS_UNSET => VNone
  end.

(** [class JobStatus(Enum)] *)
Inductive JobStatus :=
| PENDING | IN_PROGRESS | CANCELING | CANCELED | SUSPENDED | COMPLETED | ERROR | UNSET.

#[export] Instance JobStatus_eq_dec : EqDecision JobStatus.
Proof. solve_decision. Defined.

(** [JobStatus.X.value] *)
Definition JobStatus_value (s : JobStatus) : value :=
  match s with
  | PENDING => VStr "pending"
  | IN_PROGRESS => VStr "in_progress"
  | CANCELING => VStr "canceling"
  | CANCELED => VStr "canceled"
  | SUSPENDED => VStr "suspended"
  | COMPLETED => VStr "completed"
  | ERROR => VStr "error"
  | UNSET => VNone
  end.

(** [JobStatus(v)]: the member whose value is [v], [ValueError] when there
    is none. *)
Definition JobStatus_of (v : value) : result JobStatus :=
  match v with
  | VNone => Ok UNSET
  | VStr s =>
      if String.eqb s "pending" then Ok PENDING
      else if String.eqb s "in_progress" then Ok IN_PROGRESS
      else if String.eqb s "canceling" then Ok CANCELING
      else if String.eqb s "canceled" then Ok CANCELED
      else if String.eqb s "suspended" then Ok SUSPENDED
      else if String.eqb s "completed" then Ok COMPLETED
      else if String.eqb s "error" then Ok ERROR
      else Err ValueError
  | _ => Err ValueError
  end.

(** Modelled from the spec: connectors/filtering/validation.py is not among
    the sources.  The spec lists the validation states [edited], [valid],
    [invalid] and [unset], written in a document as these words, and every
    enumeration's unset member stands for an absent (null) field. *)
Inductive FilteringValidationState :=
| VALID | INVALID | EDITED | VALIDATION_UNSET.

#[export] Instance FilteringValidationState_eq_dec : EqDecision FilteringValidationState.
Proof. solve_decision. Defined.

Definition FilteringValidationState_value (s : FilteringValidationState) : value :=
  match s with
  | VALID => VStr "valid"
  | INVALID => VStr "invalid"
  | EDITED => VStr "edited"
  | VALIDATION_UNSET => VNone
  end.

Definition FilteringValidationState_of (v : value) : result FilteringValidationState :=
  match v with
  | VNone => Ok VALIDATION_UNSET
  | VStr s =>
      if String.eqb s "valid" then Ok VALID
      else if String.eqb s "invalid" then Ok INVALID
      else if String.eqb s "edited" then Ok EDITED
      else Err ValueError
  | _ => Err ValueError
  end.

(** ** Module constants *)
Definition RETRY_ON_CONFLICT : Z := 3.
Definition SYNC_DISABLED : Z := -1.
Definition JOB_NOT_FOUND_ERROR : string := "Couldn't find the job".
Definition UNKNOWN_ERROR : string := "unknown error".

(** ** [class Filter(dict)] *)
Module Filter.

(** A filter is a dict (its [items]) with three attributes set by the
    constructor. *)
Record t := Make {
  items : gmap string value;
  advanced_rules : value;
  basic_rules : value;
  validation : value;
}.

(** What [dict(x)] raises on an element of a list that is not a key/value
    pair, if anything. *)
Definition pair_fault (e : value) : option exn :=
  match e with
  | VList [k; _] => if hashable k then None else Some TypeError
  | VList _ => Some ValueError
  | VStr s => if Nat.eqb (String.length s) 2 then None else Some ValueError
  | VDict m => if Nat.eqb (size m) 2 then None else Some ValueError
  | _ => Some TypeError
  end.

(** The exception of [Filter(filter_)] for a list: [dict(filter_)] fails at
    the first element that is no pair, and when it succeeds the list has no
    [get]. *)
Fixpoint list_fault (l : list value) : exn :=
  match l with
  | [] => AttributeError
  | e :: l => match pair_fault e with Some x => x | None => list_fault l end
  end.

(** [Filter.__init__] *)
Definition init (filter_ : value) : result t :=
  let filter_ := if is_None filter_ then VDict ∅ else filter_ in
  match filter_ with
  | VDict m =>
      Ok {| items := m;
            advanced_rules := default (VDict ∅) (m !! "advanced_snippet");
            basic_rules := default (VList []) (m !! "rules");
            validation :=
              default (VDict {[ "state" := FilteringValidationState_value VALID;
                                "errors" := VList [] ]})
                      (m !! "validation") |}
  | VList l => Err (list_fault l)
  | VStr s => Err (if String.eqb s "" then AttributeError else ValueError)
  | _ => Err TypeError
  end.

(** [Filter()] *)
Definition empty : t :=
  {| items := ∅;
     advanced_rules := VDict ∅;
     basic_rules := VList [];
     validation := VDict {[ "state" := FilteringValidationState_value VALID;
                            "errors" := VList [] ]} |}.

(** [Filter.get_advanced_rules] *)
Definition get_advanced_rules (self : t) : result value :=
  dict_get (advanced_rules self) "value" (VDict ∅).

(** [Filter.has_validation_state] *)
Definition has_validation_state (self : t) (validation_state : FilteringValidationState)
  : result bool :=
  state ← getitem (validation self) (VStr "state");
  s ← FilteringValidationState_of state;
  mret (bool_decide (s = validation_state)).

End Filter.

(** ** [class Filtering] *)
Module Filtering.

Definition DEFAULT_DOMAIN : string := "DEFAULT".

(** [Filtering.__init__]: the wrapped value, [[]] for [None]. *)
Definition init (filtering : value) : value :=
  if is_None filtering then VList [] else filtering.

(** The generator of [get_filter] run over a list of bundles: the first
    bundle whose domain matches, projected to the slot [filter_state]. *)
Fixpoint first_match (bundles : list value) (filter_state domain : string)
  : result Filter.t :=
  match bundles with
  | [] => Ok Filter.empty
  | filter_ :: rest =>
      d ← getitem filter_ (VStr "domain");
      if py_eq d (VStr domain)
      then slot ← getitem filter_ (VStr filter_state); Filter.init slot
      else first_match rest filter_state domain
  end.

(** [Filtering.get_filter].  Iterating a dict or a string yields strings,
    and subscripting the first of them with ["domain"] raises. *)
Definition get_filter (self : value) (filter_state domain : string) : result Filter.t :=
  match self with
  | VList bundles => first_match bundles filter_state domain
  | VDict m => if Nat.eqb (size m) 0 then Ok Filter.empty else Err TypeError
  | VStr s => if String.eqb s "" then Ok Filter.empty else Err TypeError
  | _ => Err TypeError
  end.

Definition get_active_filter (self : value) : result Filter.t :=
  get_filter self "active" DEFAULT_DOMAIN.

Definition get_draft_filter (self : value) : result Filter.t :=
  get_filter self "draft" DEFAULT_DOMAIN.

(** [Filtering.to_list]: [list(self.filtering)].  A dict is listed by its
    keys, a string by its characters. *)
Definition to_list (self : value) : result (list value) :=
  match self with
  | VList bundles => Ok bundles
  | VDict m => Ok (VStr <$> (map_to_list m).*1)
  | VStr s => Ok ((λ c, VStr (String c EmptyString)) <$> String.list_ascii_of_string s)
  | _ => Err TypeError
  end.

End Filtering.

(** ** Documents, the index gateway and the other collaborators *)

(** Modelled from the spec: connectors/es (ESDocument, ESIndex) is not among
    the sources.  A document wrapper is a typed view over a raw index
    document: the document id and the stored mapping. *)
Record ESDocument := {
  id : string;
  source : gmap string value;
}.

Fixpoint walk (v : value) (keys : list string) : value :=
  match keys with
  | [] => v
  | key :: keys =>
      match v with
      | VDict m => walk (default VNone (m !! key)) keys
      | _ => VNone
      end
  end.

(** Modelled from the spec: [ESDocument.get] (a path of keys and a default) is the accessor
    that tolerates absent fields with defaults; a null field reads as an
    absent one. *)
Definition get (doc : ESDocument) (keys : list string) (dflt : value) : value :=
  match walk (VDict (source doc)) keys with
  | VNone => dflt
  | v => v
  end.

(** Modelled from the spec: the verdict a validator returns, with the form
    [to_dict] writes into a draft bundle. *)
Record FilteringValidationResult := {
  state : FilteringValidationState;
  errors : value;
}.

Definition to_dict (r : FilteringValidationResult) : value :=
  VDict {[ "state" := FilteringValidationState_value (state r); "errors" := errors r ]}.

(** What a mutator asks of its collaborators, in order. *)
Inductive call :=
| UpdateCall (doc_id : string) (doc : gmap string value)
| ReloadCall (doc_id : string)
| ValidateCall (draft : Filter.t).

(** The state the mutators thread: the clock readings taken so far and the
    trace of calls issued. *)
Record world := {
  clock : nat;
  calls : list call;
}.

(** The collaborators byoc.py imports.  Each answers as a function of the
    trace, the call it answers being the last one. *)
Record Env := {
  (** [iso_utc()] at the n-th reading of the clock *)
  iso_utc : nat → string;
  (** [socket.gethostname()] *)
  gethostname : string;
  (** [connectors.utils.next_run] *)
  next_run : value → result Z;
  (** [index.update]: the exception it raises, if any *)
  update_response : list call → option exn;
  (** [ESDocument.reload]: the stored mapping read back *)
  reload_response : list call → result (gmap string value);
  (** [validator.validate_filtering] *)
  validate_response : list call → result FilteringValidationResult;
  (** [DataSourceConfiguration(raw).is_empty()] *)
  configuration_is_empty : value → result bool;
  (** [get_source_klass(fqn).get_simple_configuration()], [None] when either
      raises *)
  simple_configuration : value → option value;
}.

(** The monad of the coroutines: a result and the world after it. *)
Definition M (A : Type) : Type := world → result A * world.

#[export] Instance M_ret : MRet M := λ A a w, (Ok a, w).
#[export] Instance M_bind : MBind M :=
  λ A B f c w, match c w with
               | (Ok a, w') => f a w'
               | (Err e, w') => (Err e, w')
               end.

Definition lift {A} (r : result A) : M A := λ w, (r, w).
Definition raise {A} (e : exn) : M A := λ w, (Err e, w).

(** [try: c except Exception: raise e] *)
Definition reraise_as {A} (e : exn) (c : M A) : M A :=
  λ w, match c w with
       | (Ok a, w') => (Ok a, w')
       | (Err _, w') => (Err e, w')
       end.

Section Gateway.
Context (E : Env).

(** [iso_utc()] *)
Definition now : M value :=
  λ w, (Ok (VStr (iso_utc E (clock w))), {| clock := S (clock w); calls := calls w |}).

Definition issue (c : call) : M (list call) :=
  λ w, let trace := (calls w ++ [c])%list in
       (Ok trace, {| clock := clock w; calls := trace |}).

(** [await self.index.update(doc_id=..., doc=...)] *)
Definition index_update (doc_id : string) (doc : gmap string value) : M unit :=
  trace ← issue (UpdateCall doc_id doc);
  match update_response E trace with
  | Some e => raise e
  | None => mret tt
  end.

(** [await self.reload()] *)
Definition reload (self : ESDocument) : M ESDocument :=
  trace ← issue (ReloadCall (id self));
  src ← lift (reload_response E trace);
  mret {| id := id self; source := src |}.

(** [await validator.validate_filtering(draft)] *)
Definition validator_validate_filtering (draft : Filter.t) : M FilteringValidationResult :=
  trace ← issue (ValidateCall draft);
  lift (validate_response E trace).
End Gateway.

(** ** [class Features] *)
Module Features.

Definition BASIC_RULES_NEW : string := "basic_rules_new".
Definition ADVANCED_RULES_NEW : string := "advanced_rules_new".
Definition BASIC_RULES_OLD : string := "basic_rules_old".
Definition ADVANCED_RULES_OLD : string := "advanced_rules_old".

(** [Features.__init__]: the wrapped value, [{}] for [None]. *)
Definition init (features : value) : value :=
  if is_None features then VDict ∅ else features.

(** The local function [nested_get] of [_nested_feature_enabled]. *)
Fixpoint nested_get (dictionary : value) (keys_ : list string) (default_ : value) : value :=
  if is_None dictionary then default_
  else match keys_ with
       | [] => dictionary
       | key :: rest =>
           match dictionary with
           | VDict m => nested_get (default VNone (m !! key)) rest default_
           | _ => default_
           end
       end.

Definition _nested_feature_enabled (self : value) (keys : list string) (dflt : value)
  : value :=
  nested_get self keys dflt.

(** [Features.feature_enabled]; [self] is the wrapped [features] value. *)
Definition feature_enabled (self : value) (feature : value) : result value :=
  match feature with
  | VStr name =>
      if String.eqb name BASIC_RULES_NEW
      then Ok (_nested_feature_enabled self ["sync_rules"; "basic"; "enabled"] (VBool false))
      else if String.eqb name ADVANCED_RULES_NEW
      then Ok (_nested_feature_enabled self ["sync_rules"; "advanced"; "enabled"] (VBool false))
      else if String.eqb name BASIC_RULES_OLD
      then dict_get self "filtering_rules" (VBool false)
      else if String.eqb name ADVANCED_RULES_OLD
      then dict_get self "filtering_advanced_config" (VBool false)
      else Ok (VBool false)
  | _ => Ok (VBool false)
  end.

(** [Features.sync_rules_enabled]: the list is built first, then [any]. *)
Definition sync_rules_enabled (self : value) : result bool :=
  a ← feature_enabled self (VStr BASIC_RULES_NEW);
  b ← feature_enabled self (VStr BASIC_RULES_OLD);
  c ← feature_enabled self (VStr ADVANCED_RULES_NEW);
  d ← feature_enabled self (VStr ADVANCED_RULES_OLD);
  mret (existsb truthy [a; b; c; d]).

End Features.

(** ** [class SyncJob(ESDocument)] *)
Module SyncJob.

Definition status (self : ESDocument) : result JobStatus :=
  JobStatus_of (get self ["status"] VNone).

Definition error (self : ESDocument) : value :=
  get self ["error"] VNone.

Definition terminated (self : ESDocument) : result bool :=
  s ← status self;
  mret (bool_decide (s ∈ [ERROR; COMPLETED; CANCELED])).

Definition indexed_document_count (self : ESDocument) : value :=
  get self ["indexed_document_count"] (VInt 0).

Definition deleted_document_count (self : ESDocument) : value :=
  get self ["deleted_document_count"] (VInt 0).

Section Mutators.
Context (E : Env).

(** [SyncJob.claim] *)
Definition claim (self : ESDocument) : M unit :=
  started_at ← now E;
  last_seen ← now E;
  index_update E (id self)
    {[ "status" := JobStatus_value IN_PROGRESS;
       "started_at" := started_at;
       "last_seen" := last_seen;
       "worker_hostname" := VStr (gethostname E) ]}.

(** [SyncJob._terminate] *)
Definition _terminate (self : ESDocument) (status : JobStatus) (error : value)
    (ingestion_stats connector_metadata : option (gmap string value)) : M unit :=
  let ingestion_stats := default ∅ ingestion_stats in
  let connector_metadata := default ∅ connector_metadata in
  last_seen ← now E;
  let doc : gmap string value :=
    {[ "last_seen" := last_seen;
       "status" := JobStatus_value status;
       "error" := error ]} in
  doc ← (if bool_decide (status ∈ [ERROR; COMPLETED; CANCELED])
         then completed_at ← now E; mret (<["completed_at" := completed_at]> doc)
         else mret doc);
  doc ← (if bool_decide (status = CANCELED)
         then canceled_at ← now E; mret (<["canceled_at" := canceled_at]> doc)
         else mret doc);
  (* doc.update(ingestion_stats) *)
  let doc := ingestion_stats ∪ doc in
  let doc := if (0 <? size connector_metadata)%nat
             then <["metadata" := VDict connector_metadata]> doc
             else doc in
  index_update E (id self) doc.

(** [SyncJob.done] *)
Definition done (self : ESDocument)
    (ingestion_stats connector_metadata : option (gmap string value)) : M unit :=
  _terminate self COMPLETED VNone ingestion_stats connector_metadata.

(** [SyncJob.fail]; [message] is [str(message)]. *)
Definition fail (self : ESDocument) (message : string)
    (ingestion_stats connector_metadata : option (gmap string value)) : M unit :=
  _terminate self ERROR (VStr message) ingestion_stats connector_metadata.

(** [SyncJob.cancel] *)
Definition cancel (self : ESDocument)
    (ingestion_stats connector_metadata : option (gmap string value)) : M unit :=
  _terminate self CANCELED VNone ingestion_stats connector_metadata.

(** [SyncJob.suspend] *)
Definition suspend (self : ESDocument)
    (ingestion_stats connector_metadata : option (gmap string value)) : M unit :=
  _terminate self SUSPENDED VNone ingestion_stats connector_metadata.
End Mutators.

End SyncJob.

(** ** [class Connector(ESDocument)] *)
Module Connector.

Definition service_type (self : ESDocument) : value :=
  get self ["service_type"] VNone.

Definition sync_now (self : ESDocument) : value :=
  get self ["sync_now"] (VBool false).

Definition scheduling (self : ESDocument) : value :=
  get self ["scheduling"] (VDict ∅).

(** The raw mapping [DataSourceConfiguration] is built from. *)
Definition configuration (self : ESDocument) : value :=
  get self ["configuration"] VNone.

Definition filtering (self : ESDocument) : value :=
  Filtering.init (get self ["filtering"] VNone).

Definition features (self : ESDocument) : value :=
  Features.init (get self ["features"] VNone).

(** One turn of the loop of [validate_filtering]: the verdict is written
    into the draft of a default-domain bundle, and a valid draft becomes the
    active filter.  A bundle without a draft gets the verdict written into a
    temporary dict that is dropped. *)
Definition revise_bundle (verdict : FilteringValidationResult) (filter_ : value)
  : result value :=
  domain ← dict_get filter_ "domain" (VStr "");
  if py_eq domain (VStr Filtering.DEFAULT_DOMAIN)
  then match filter_ with
       | VDict m =>
           m' ← match m !! "draft" with
                | None => Ok m
                | Some (VDict draft) =>
                    Ok (<["draft" := VDict (<["validation" := to_dict verdict]> draft)]> m)
                | Some _ => Err TypeError
                end;
           mret (VDict (if bool_decide (state verdict = VALID)
                        then <["active" := default VNone (m' !! "draft")]> m'
                        else m'))
       | _ => Err AttributeError
       end
  else mret filter_.

Section Methods.
Context (E : Env).

(** [Connector.next_sync] *)
Definition next_sync (self : ESDocument) : result Z :=
  if truthy (sync_now self) then Ok 0
  else
    enabled ← dict_get (scheduling self) "enabled" (VBool false);
    if negb (truthy enabled) then Ok SYNC_DISABLED
    else
      interval ← dict_get (scheduling self) "interval" VNone;
      next_run E interval.

(** [Connector.reset_sync_now_flag] *)
Definition reset_sync_now_flag (self : ESDocument) : M unit :=
  index_update E (id self) {[ "sync_now" := VBool false ]}.

(** [Connector.sync_starts] *)
Definition sync_starts (self : ESDocument) : M unit :=
  index_update E (id self)
    {[ "last_sync_status" := JobStatus_value IN_PROGRESS;
       "last_sync_error" := VNone;
       "status" := Status_value CONNECTED ]}.

(** [Connector.error]; [error] is [str(error)]. *)
Definition error (self : ESDocument) (error : string) : M unit :=
  index_update E (id self)
    {[ "status" := Status_value STATUS_ERROR; "error" := VStr error ]}.

(** [Connector.sync_done]; [job] is [None] or a sync job. *)
Definition sync_done (self : ESDocument) (job : option ESDocument) : M unit :=
  job_status ← lift (match job with
                     | None => Ok ERROR
                     | Some job => SyncJob.status job
                     end);
  let job_error := match job with
                   | None => VStr JOB_NOT_FOUND_ERROR
                   | Some job => SyncJob.error job
                   end in
  let job_error := if is_None job_error && bool_decide (job_status = ERROR)
                   then VStr UNKNOWN_ERROR else job_error in
  let connector_status := if bool_decide (job_status = ERROR)
                          then STATUS_ERROR else CONNECTED in
  last_synced ← now E;
  let doc : gmap string value :=
    {[ "last_sync_status" := JobStatus_value job_status;
       "last_synced" := last_synced;
       "last_sync_error" := job_error;
       "status" := Status_value connector_status;
       "error" := job_error ]} in
  doc ← lift (match job with
              | None => Ok doc
              | Some job =>
                  terminated ← SyncJob.terminated job;
                  if (terminated : bool)
                  then Ok (<["last_deleted_document_count" :=
                               SyncJob.deleted_document_count job]>
                           (<["last_indexed_document_count" :=
                                SyncJob.indexed_document_count job]> doc))
                  else Ok doc
              end);
  index_update E (id self) doc.

(** [Connector.prepare]; the connector returned is [self] after the call. *)
Definition prepare (self : ESDocument) (config : gmap string value) : M ESDocument :=
  let configured_connector_id := default (VStr "") (config !! "connector_id") in
  let configured_service_type := default (VStr "") (config !! "service_type") in
  if negb (py_eq (VStr (id self)) configured_connector_id) then mret self
  else
    configured ← lift (if is_None (service_type self) then Ok false
                       else negb <$> configuration_is_empty E (configuration self));
    if (configured : bool) then mret self
    else
      doc ← (if is_None (service_type self)
             then if negb (truthy configured_service_type)
                  then raise ServiceTypeNotConfiguredError
                  else mret ({[ "service_type" := configured_service_type ]}
                               : gmap string value)
             else mret (∅ : gmap string value));
      is_empty ← lift (configuration_is_empty E (configuration self));
      doc ← (if (is_empty : bool)
             then
               sources ← lift (getitem (VDict config) (VStr "sources"));
               supported ← lift (contains configured_service_type sources);
               if negb supported
               then raise (ServiceTypeNotSupportedError configured_service_type)
               else
                 fqn ← lift (getitem sources configured_service_type);
                 match simple_configuration E fqn with
                 | Some defaults =>
                     mret (<["status" := Status_value NEEDS_CONFIGURATION]>
                           (<["configuration" := defaults]> doc))
                 | None => raise DataSourceError
                 end
             else mret doc);
      _ ← reraise_as ConnectorUpdateError (index_update E (id self) doc);
      reload E self.

(** [Connector.validate_filtering]; the connector returned is [self] after
    the call. *)
Definition validate_filtering (self : ESDocument) : M ESDocument :=
  draft_filter ← lift (Filtering.get_draft_filter (filtering self));
  edited ← lift (Filter.has_validation_state draft_filter EDITED);
  if negb edited then mret self
  else
    validation_result ← validator_validate_filtering E draft_filter;
    bundles ← lift (Filtering.to_list (filtering self));
    bundles ← lift (mapM (revise_bundle validation_result) bundles);
    _ ← index_update E (id self) {[ "filtering" := VList bundles ]};
    reload E self.
End Methods.

End Connector.

(** ** Objects in a store: [copy.deepcopy] and [Filter.transform_filtering]

    Whether two values share structure cannot be told from the values, so
    here dicts and lists are objects at locations of a store, and a
    container holds atoms and references to other objects. *)
Module Store.
#[local] Open Scope nat_scope.

Abbreviation loc := nat.

(** What a variable, an element, an item or an attribute holds. *)
Inductive ref :=
| RNone
| RBool (b : bool)
| RInt (z : Z)
| RStr (s : string)
| RObj (l : loc).

(** The class of a mapping object: a plain [dict] or a [Filter]. *)
Inductive class := DictClass | FilterClass.

(** A list, or a dict with its items and its instance attributes (a plain
    dict has none). *)
Inductive obj :=
| OList (elems : list ref)
| OMap (cls : class) (items attrs : gmap string ref).

Abbreviation heap := (list obj).

(** The value an object graph stands for, when it is a finite tree. *)
Inductive tree :=
| TNone
| TBool (b : bool)
| TInt (z : Z)
| TStr (s : string)
| TList (elems : list tree)
| TMap (cls : class) (items attrs : gmap string tree).

Definition reify_map (f : ref → option tree) (m : gmap string ref)
  : option (gmap string tree) :=
  if decide (map_Forall (λ _ c, is_Some (f c)) m) then Some (omap f m) else None.

(** The tree of an object, given the trees of what it holds. *)
Definition reify_obj (f : ref → option tree) (o : obj) : option tree :=
  match o with
  | OList elems => TList <$> mapM f elems
  | OMap cls items attrs =>
      items' ← reify_map f items;
      attrs' ← reify_map f attrs;
      Some (TMap cls items' attrs')
  end.

(** The tree below [x], read with at most [n] nested objects; [None] when a
    reference dangles or the nesting is deeper (a cycle is, for every [n]). *)
Fixpoint reify (n : nat) (h : heap) (x : ref) : option tree :=
  match x with
  | RNone => Some TNone
  | RBool b => Some (TBool b)
  | RInt z => Some (TInt z)
  | RStr s => Some (TStr s)
  | RObj l =>
      match n with
      | O => None
      | S n => h !! l ≫= reify_obj (reify n h)
      end
  end.

(** One step from an object to an object it holds. *)
Definition holds (o : obj) (x : ref) : Prop :=
  match o with
  | OList elems => x ∈ elems
  | OMap _ items attrs => (∃ k, items !! k = Some x) ∨ (∃ k, attrs !! k = Some x)
  end.

(** The objects reachable from [x]. *)
Inductive reach (h : heap) : ref → loc → Prop :=
| reach_here l : reach h (RObj l) l
| reach_step l o x l' :
    h !! l = Some o → holds o x → reach h x l' → reach h (RObj l) l'.

(** Where a copied child goes in the copy of its parent. *)
Inductive slot :=
| Elem
| Item (key : string)
| Attr (key : string).

(** [y.append(v)], [y[key] = v], [y.__dict__[key] = v] *)
Definition put (s : slot) (v : ref) (o : obj) : obj :=
  match s, o with
  | Elem, OList elems => OList (elems ++ [v])
  | Item key, OMap cls items attrs => OMap cls (<[key := v]> items) attrs
  | Attr key, OMap cls items attrs => OMap cls items (<[key := v]> attrs)
  | _, _ => o
  end.

(** [deepcopy(x, memo)] in a store: the copy, the memo and the store after. *)
Abbreviation copier := (ref → gmap loc loc → heap → option (ref * gmap loc loc * heap)).

(** One turn of a copying loop: copy the child, store the copy in the
    object at [y]. *)
Definition copy_child (rec : copier) (y : loc) (s : slot) (c : ref)
    (st : option (gmap loc loc * heap)) : option (gmap loc loc * heap) :=
  '(memo, h) ← st;
  '(v, memo, h) ← rec c memo h;
  Some (memo, alter (put s v) y h).

(** [for a in x: y.append(deepcopy(a, memo))] *)
Definition copy_elems (rec : copier) (y : loc) (elems : list ref)
    (st : option (gmap loc loc * heap)) : option (gmap loc loc * heap) :=
  foldl (λ st c, copy_child rec y Elem c st) st elems.

(** [for key, value in x.items(): y[key] = deepcopy(value, memo)], and the
    same for the attributes.  The keys are strings, which [deepcopy] returns
    as they are. *)
Definition copy_entries (rec : copier) (y : loc) (mk : string → slot)
    (m : gmap string ref) (st : option (gmap loc loc * heap))
  : option (gmap loc loc * heap) :=
  map_fold (λ key c st, copy_child rec y (mk key) c st) st m.

(** [copy.deepcopy]: atoms are returned as they are; an object already in
    the memo is answered from it; a list or a dict is copied into a new
    object that is entered in the memo before its children are copied
    ([_deepcopy_list], [_deepcopy_dict]); an instance of a dict subclass is
    rebuilt the same way, its attributes first and its items next
    ([_reconstruct]).  [n] bounds the nesting of calls. *)
Fixpoint deepcopy (n : nat) (x : ref) (memo : gmap loc loc) (h : heap)
  : option (ref * gmap loc loc * heap) :=
  match x with
  | RObj l =>
      match memo !! l with
      | Some y => Some (RObj y, memo, h)
      | None =>
          match n with
          | O => None
          | S n =>
              let y := length h in
              match h !! l with
              | None => None
              | Some (OList elems) =>
                  '(memo, h) ← copy_elems (deepcopy n) y elems
                                 (Some (<[l := y]> memo, h ++ [OList []]));
                  Some (RObj y, memo, h)
              | Some (OMap cls items attrs) =>
                  '(memo, h) ← copy_entries (deepcopy n) y Item items
                                 (copy_entries (deepcopy n) y Attr attrs
                                    (Some (<[l := y]> memo, h ++ [OMap cls ∅ ∅])));
                  Some (RObj y, memo, h)
              end
          end
      end
  | _ => Some (x, memo, h)
  end.

(** [Filter.transform_filtering]; [self] is a dict object (a [Filter]).
    The value for an empty filter is a dict display: its two values are
    built first. *)
Definition transform_filtering (n : nat) (self : loc) (h : heap) : option (ref * heap) :=
  match h !! self with
  | Some (OMap _ items _) =>
      if Nat.eqb (size items) 0
      then
        let advanced_snippet := length h in
        let rules := S (length h) in
        Some (RObj (S (S (length h))),
              h ++ [OMap DictClass ∅ ∅;
                    OList [];
                    OMap DictClass {[ "advanced_snippet" := RObj advanced_snippet;
                                      "rules" := RObj rules ]} ∅])
      else
        '(filtering, _, h) ← deepcopy n (RObj self) ∅ h;
        Some (filtering, h)
  | _ => None
  end.

End Store.

(** ** The producers and the consumer of [JiraDataSource.get_docs]

    The coroutines run on one event loop, so the code between two [await]s
    is one step, and a run of [get_docs] is an interleaving of the steps of
    the producers and of the consumer. *)
Module Jira.
#[local] Open Scope nat_scope.

(** What is put on the queue: a pair of a document and what is needed to
    download its content, or a string. *)
Inductive qitem :=
| QPair (doc : value) (download : option (string * value))
| QStr (s : string).

Definition FINISHED : qitem := QStr "FINISHED".

(** [item == "FINISHED"] *)
Definition is_FINISHED (item : qitem) : bool :=
  match item with
  | QStr s => String.eqb s "FINISHED"
  | QPair _ _ => false
  end.

Definition MAX_CONCURRENCY : nat := 5.

(** How an asynchronous generator goes on after what it has yielded: it is
    exhausted; or a call to the Jira API (after its retries) or an access
    to a missing field raises; or it waits for ever for an answer (the
    session has no timeout); or it yields for ever, as a pagination does
    when the server's total keeps ahead of it. *)
Inductive ending (A : Type) :=
| Exhausted
| Raises
| Stalls
| Endless (more : nat → A).
Arguments Exhausted {A}.
Arguments Raises {A}.
Arguments Stalls {A}.
Arguments Endless {A} more.

Definition ending_map {A B} (f : A → B) (e : ending A) : ending B :=
  match e with
  | Exhausted => Exhausted
  | Raises => Raises
  | Stalls => Stalls
  | Endless more => Endless (λ k, f (more k))
  end.

(** What an asynchronous generator yields first, and how it goes on. *)
Record stream (A : Type) := {
  yields : list A;
  ends : ending A;
}.
Arguments yields {A} s.
Arguments ends {A} s.

(** An issue as [_get_issues] yields it: the document, [issue["key"]] and
    [issue["fields"]["attachment"]], [None] when that raises. *)
Record issue := {
  document : value;
  key : string;
  attachment : option (list value);
}.

(** What the Jira server answers during one run. *)
Record feed := {
  (** [_get_projects()] *)
  get_projects : stream value;
  (** [_get_issues()] *)
  get_issues : stream issue;
  (** [_get_attachments(attachments, issue_key)] *)
  get_attachments : list value → string → stream (value * value);
}.

(** What a producer puts besides its sentinel: a document and what is
    needed to download its content. *)
Definition item_of (x : value * option (string * value)) : qitem :=
  QPair x.1 x.2.

(** A producer that only puts: what it has still to put of what its
    generator has yielded, and how the generator goes on; or it has put its
    sentinel and returned.  [Producing [] Raises] has raised: it puts
    nothing more. *)
Inductive producer :=
| Producing (pending : list qitem) (e : ending (value * option (string * value)))
| Finished.

(** [_document_task]: about to take the next issue and put its document;
    or about to hand the attachments of the last issue to the fetchers; or
    returned. *)
Inductive document_producer :=
| DPut (issues : list issue) (e : ending issue)
| DSpawn (attachments : list value) (issue_key : string) (issues : list issue)
         (e : ending issue)
| DFinished.

(** [_project_task] at its start *)
Definition project_task_of (F : feed) : producer :=
  Producing ((λ project_data, QPair project_data None) <$> yields (get_projects F))
            (ending_map (λ project_data, (project_data, None)) (ends (get_projects F))).

(** [_grab_content(attachments, issue_key)] at its start *)
Definition grab_content_of (F : feed) (attachments : list value) (issue_key : string)
  : producer :=
  let s := get_attachments F attachments issue_key in
  Producing ((λ ca, QPair ca.1 (Some (issue_key, ca.2))) <$> yields s)
            (ending_map (λ ca, (ca.1, Some (issue_key, ca.2))) (ends s)).

(** [_document_task] after it has put the document of [i] *)
Definition after_document (i : issue) (rest : list issue) (e : ending issue)
  : document_producer :=
  match attachment i with
  | None => DPut [] Raises
  | Some [] => DPut rest e
  | Some attachments => DSpawn attachments (key i) rest e
  end.

(** How many elements of a list pass a test. *)
Fixpoint count {A} (test : A → bool) (l : list A) : nat :=
  match l with
  | [] => 0
  | x :: l => Nat.b2n (test x) + count test l
  end.

(** A task of the fetchers that has not returned or raised. *)
Definition running (p : producer) : bool :=
  match p with
  | Producing [] Raises => false
  | Producing _ _ => true
  | Finished => false
  end.

(** The state of a run: the queue, [self.tasks], the tasks created, what
    the consumer has yielded, whether it is still in its loop, and how many
    sentinels it has taken off the queue. *)
Record state := State {
  queue : list qitem;
  tasks : Z;
  project_task : producer;
  document_task : document_producer;
  fetchers : list producer;
  yielded : list qitem;
  consuming : bool;
  seen : nat;
}.

(** [get_docs] up to its loop: both tasks are created and counted. *)
Definition init (F : feed) : state :=
  {| queue := [];
     tasks := (0 + 1 + 1)%Z;
     project_task := project_task_of F;
     document_task := DPut (yields (get_issues F)) (ends (get_issues F));
     fetchers := [];
     yielded := [];
     consuming := true;
     seen := 0 |}.

Section Steps.
Context (F : feed).
(** Modelled from the spec: [MemQueue.put] blocks until the item fits with
    what the queue holds. *)
Context (fits : list qitem → qitem → bool).

Inductive step : state → state → Prop :=
(* [await self.queue.put((project_data, None))] *)
| project_put q t x pending e d f y c n :
    fits q x = true →
    step (State q t (Producing (x :: pending) e) d f y c n)
         (State (q ++ [x]) t (Producing pending e) d f y c n)
(* the generator of [_project_task] yields once more *)
| project_more q t more d f y c n :
    step (State q t (Producing [] (Endless more)) d f y c n)
         (State q t (Producing [item_of (more 0)] (Endless (λ k, more (S k)))) d f y c n)
(* [await self.queue.put("FINISHED")], in [_project_task] *)
| project_finish q t d f y c n :
    fits q FINISHED = true →
    step (State q t (Producing [] Exhausted) d f y c n)
         (State (q ++ [FINISHED]) t Finished d f y c n)
(* [await self.queue.put((document, None))], then the attachments are
   looked at *)
| document_put q t p i rest e f y c n :
    fits q (QPair (document i) None) = true →
    step (State q t p (DPut (i :: rest) e) f y c n)
         (State (q ++ [QPair (document i) None]) t p (after_document i rest e) f y c n)
(* Modelled from the spec: [ConcurrentTasks.put] blocks until a worker
   slot is free, then schedules the task; [self.tasks += 1] follows
   without an [await] in between. *)
| document_spawn q t p attachments issue_key rest e f y c n :
    count running f < MAX_CONCURRENCY →
    step (State q t p (DSpawn attachments issue_key rest e) f y c n)
         (State q (t + 1)%Z p (DPut rest e)
                (f ++ [grab_content_of F attachments issue_key]) y c n)
(* the generator of [_document_task] yields once more *)
| document_more q t p more f y c n :
    step (State q t p (DPut [] (Endless more)) f y c n)
         (State q t p (DPut [more 0] (Endless (λ k, more (S k)))) f y c n)
(* [await self.queue.put("FINISHED")], in [_document_task] *)
| document_finish q t p f y c n :
    fits q FINISHED = true →
    step (State q t p (DPut [] Exhausted) f y c n)
         (State (q ++ [FINISHED]) t p DFinished f y c n)
(* [await self.queue.put((content, partial(...)))], in [_grab_content] *)
| grab_put q t p d f1 x pending e f2 y c n :
    fits q x = true →
    step (State q t p d (f1 ++ Producing (x :: pending) e :: f2) y c n)
         (State (q ++ [x]) t p d (f1 ++ Producing pending e :: f2) y c n)
(* the generator of [_grab_content] yields once more *)
| grab_more q t p d f1 more f2 y c n :
    step (State q t p d (f1 ++ Producing [] (Endless more) :: f2) y c n)
         (State q t p d (f1 ++ Producing [item_of (more 0)] (Endless (λ k, more (S k))) :: f2)
                y c n)
(* [await self.queue.put("FINISHED")], in [_grab_content] *)
| grab_finish q t p d f1 f2 y c n :
    fits q FINISHED = true →
    step (State q t p d (f1 ++ Producing [] Exhausted :: f2) y c n)
         (State (q ++ [FINISHED]) t p d (f1 ++ Finished :: f2) y c n)
(* the loop takes a sentinel: [self.tasks -= 1] *)
| consume_sentinel item q t p d f y n :
    (0 < t)%Z → is_FINISHED item = true →
    step (State (item :: q) t p d f y true n)
         (State q (t - 1)%Z p d f y true (S n))
(* the loop takes anything else: [yield item] *)
| consume_item item q t p d f y n :
    (0 < t)%Z → is_FINISHED item = false →
    step (State (item :: q) t p d f y true n)
         (State q t p d f (y ++ [item]) true n)
(* [while self.tasks > 0] fails: the loop is left *)
| consume_exit q t p d f y n :
    ¬ (0 < t)%Z →
    step (State q t p d f y true n) (State q t p d f y false n).

(** The states of the runs of [get_docs]. *)
Definition reachable : state → Prop := rtc step (init F).
End Steps.

(** The producers started so far: the two tasks and one per call of the
    fetchers. *)
Definition started (s : state) : nat := 2 + length (fetchers s).

Definition is_Finished (p : producer) : bool :=
  match p with Finished => true | Producing _ _ => false end.

Definition is_DFinished (d : document_producer) : bool :=
  match d with DFinished => true | _ => false end.

(** The producers that have returned. *)
Definition finished (s : state) : nat :=
  Nat.b2n (is_Finished (project_task s)) + Nat.b2n (is_DFinished (document_task s)) +
  count is_Finished (fetchers s).

(** The sentinels on the queue. *)
Definition sentinels (q : list qitem) : nat :=
  count is_FINISHED q.

End Jira.

(** ** Sample collaborators and documents *)
Module Samples.

Definition env : Env := {|
  iso_utc := λ _, "2023-01-01T00:00:00Z";
  gethostname := "worker-1";
  next_run := λ _, Ok 60;
  update_response := λ _, None;
  reload_response := λ _, Ok ∅;
  validate_response := λ _, Ok {| state := VALID; errors := VList [] |};
  configuration_is_empty := λ raw,
    match raw with
    | VNone => Ok true
    | VDict m => Ok (Nat.eqb (size m) 0)
    | _ => Err AttributeError
    end;
  simple_configuration := λ _, None;
|}.

Definition w0 : world := {| clock := 0; calls := [] |}.

(** A connector document with nothing but its id. *)
Definition bare_connector : ESDocument := {| id := "c1"; source := ∅ |}.

Definition connector_sync_now : ESDocument :=
  {| id := "c1";
     source := {[ "sync_now" := VBool true;
                  "scheduling" := VDict {[ "enabled" := VBool false ]} ]} |}.

Definition connector_disabled : ESDocument :=
  {| id := "c1";
     source := {[ "sync_now" := VBool false;
                  "scheduling" := VDict {[ "enabled" := VBool false ]} ]} |}.

Definition connector_scheduled : ESDocument :=
  {| id := "c1";
     source := {[ "scheduling" := VDict {[ "enabled" := VBool true;
                                            "interval" := VStr "0 0 * * * ?" ]} ]} |}.

Definition connector_configured : ESDocument :=
  {| id := "c1";
     source := {[ "service_type" := VStr "jira";
                  "configuration" := VDict {[ "host_url" := VDict {[ "value" := VStr "http://127.0.0.1:8080" ]} ]} ]} |}.

Definition connector_typed : ESDocument :=
  {| id := "c1"; source := {[ "service_type" := VStr "jira" ]} |}.

Definition connector_with_draft : ESDocument :=
  {| id := "c1";
     source := {[ "filtering" :=
                    VList [ VDict {[ "domain" := VStr "OTHER"; "draft" := VNone ]};
                            VDict {[ "domain" := VStr "DEFAULT";
                                     "draft" := VDict {[ "rules" := VList [] ]} ]} ] ]} |}.

Definition job_completed : ESDocument :=
  {| id := "j1"; source := {[ "status" := VStr "completed" ]} |}.

Definition job_failed : ESDocument :=
  {| id := "j1"; source := {[ "status" := VStr "error" ]} |}.

(** A completed job that still records an error. *)
Definition job_completed_with_error : ESDocument :=
  {| id := "j1"; source := {[ "status" := VStr "completed"; "error" := VStr "boom" ]} |}.

(** Ingestion stats: the counters of a sync. *)
Definition counter_stats : gmap string value :=
  {[ "indexed_document_count" := VInt 3; "indexed_document_volume" := VInt 10;
     "deleted_document_count" := VInt 0; "total_document_count" := VInt 3 ]}.

Definition config_jira_unsupported : gmap string value :=
  {[ "connector_id" := VStr "c1"; "service_type" := VStr "jira"; "sources" := VDict ∅ ]}.

Definition config_other_connector : gmap string value :=
  {[ "connector_id" := VStr "c2"; "service_type" := VStr "jira"; "sources" := VDict ∅ ]}.

(** No service type configured. *)
Definition config_untyped : gmap string value :=
  {[ "connector_id" := VStr "c1"; "sources" := VDict ∅ ]}.

Definition features_legacy : value :=
  VDict {[ "filtering_rules" := VBool true ]}.

(** A store with a filter bundle at 0..3 and the [Filter] built from it at
    4: the filter's items and attributes are the bundle's own objects. *)
Definition heap : list Store.obj :=
  [ Store.OMap Store.DictClass {[ "value" := Store.RInt 1 ]} ∅;                         (* 0 *)
    Store.OList [Store.RStr "r1"];                                                (* 1 *)
    Store.OMap Store.DictClass {[ "state" := Store.RStr "valid"; "errors" := Store.RObj 3 ]} ∅; (* 2 *)
    Store.OList [];                                                         (* 3 *)
    Store.OMap Store.FilterClass
      {[ "advanced_snippet" := Store.RObj 0; "rules" := Store.RObj 1; "validation" := Store.RObj 2 ]}
      {[ "advanced_rules" := Store.RObj 0; "basic_rules" := Store.RObj 1; "validation" := Store.RObj 2 ]} ].


(** A feed with one project and one issue that has one attachment. *)
Definition sample_feed : Jira.feed := {|
  Jira.get_projects := {| Jira.yields := [VStr "project"]; Jira.ends := Jira.Exhausted |};
  Jira.get_issues :=
    {| Jira.yields := [ {| Jira.document := VStr "issue"; Jira.key := "K-1";
                           Jira.attachment := Some [VStr "attachment"] |} ];
       Jira.ends := Jira.Exhausted |};
  Jira.get_attachments := λ attachments _,
    {| Jira.yields := (λ a, (a, a)) <$> attachments; Jira.ends := Jira.Exhausted |};
|}.

(** A feed whose projects cannot be fetched and that has no issue. *)
Definition failing_feed : Jira.feed := {|
  Jira.get_projects := {| Jira.yields := []; Jira.ends := Jira.Raises |};
  Jira.get_issues := {| Jira.yields := []; Jira.ends := Jira.Exhausted |};
  Jira.get_attachments := λ _ _, {| Jira.yields := []; Jira.ends := Jira.Exhausted |};
|}.


End Samples.

(** * Properties *)

(** [c], run in [w], issues exactly one call, the update of [doc_id] with
    the patch [doc]. *)
Definition writes {A} (c : M A) (w : world) (doc_id : string) (doc : gmap string value)
  : Prop :=
  calls (c w).2 = (calls w ++ [UpdateCall doc_id doc])%list.

(** [c], run in [w], returns [a] and leaves no trace: no call, no clock
    reading. *)
Definition no_op {A} (c : M A) (w : world) (a : A) : Prop :=
  c w = (Ok a, w).

(** Evaluate the lookups in patches built by the code. *)
Ltac eval_lookups :=
  repeat match goal with
         | |- context [ ?m !! ?k ] =>
             lazymatch m with
             | context [ insert ] => idtac
             | context [ singletonM ] => idtac
             end;
             let r := eval vm_compute in (m !! k) in
             change (m !! k) with r
         end.

Section ConnectorProperties.
Context (E : Env).
Implicit Types (self job : ESDocument) (w : world) (m : gmap string value).

Lemma index_update_calls doc_id doc w :
  calls (index_update E doc_id doc w).2 = (calls w ++ [UpdateCall doc_id doc])%list.
Proof.
  unfold index_update, issue, mbind, M_bind, raise, mret, M_ret. cbn.
  by case_match.
Qed.

(** C1: [next_sync] is 0 when [sync_now] holds, whatever the schedule;
    it is [SYNC_DISABLED] when [sync_now] does not hold and the schedule's
    [enabled] is absent or false; otherwise it is [next_run] of the
    schedule's [interval]. *)
Theorem next_sync_cases self :
  SYNC_DISABLED = -1 ∧
  (truthy (Connector.sync_now self) = true → Connector.next_sync E self = Ok 0) ∧
  (∀ m, truthy (Connector.sync_now self) = false →
        Connector.scheduling self = VDict m →
        truthy (default (VBool false) (m !! "enabled")) = false →
        Connector.next_sync E self = Ok SYNC_DISABLED) ∧
  (∀ m, truthy (Connector.sync_now self) = false →
        Connector.scheduling self = VDict m →
        truthy (default (VBool false) (m !! "enabled")) = true →
        Connector.next_sync E self = next_run E (default VNone (m !! "interval"))).
Proof.
  split; [done|]. unfold Connector.next_sync. split; [|split].
  - by intros ->.
  - intros m -> -> Hen. cbn. by rewrite Hen.
  - intros m -> -> Hen. cbn. by rewrite Hen.
Qed.

(** C2: with no job, [sync_done] writes one patch, in which
    [last_sync_status] is error, [last_sync_error] is "Couldn't find the
    job" and [status] is error. *)
Theorem sync_done_job_absent self w :
  ∃ doc, writes (Connector.sync_done E self None) w (id self) doc ∧
         doc !! "last_sync_status" = Some (VStr "error") ∧
         doc !! "last_sync_error" = Some (VStr "Couldn't find the job") ∧
         doc !! "status" = Some (VStr "error").
Proof.
  eexists. split.
  - unfold writes, Connector.sync_done. unfold mbind, M_bind, lift, now. cbn.
    rewrite index_update_calls. cbn. reflexivity.
  - repeat split; reflexivity.
Qed.

(** C3: with a job, [sync_done] writes the job's status as
    [last_sync_status] and the job's error as [last_sync_error], "unknown
    error" standing in for a null error of a job in error; [status] is
    error for a job in error and connected otherwise. *)
Theorem sync_done_job_present self job s w :
  SyncJob.status job = Ok s →
  ∃ doc, writes (Connector.sync_done E self (Some job)) w (id self) doc ∧
         doc !! "last_sync_status" = Some (JobStatus_value s) ∧
         doc !! "last_sync_error" =
           Some (if bool_decide (s = ERROR) && is_None (SyncJob.error job)
                 then VStr "unknown error" else SyncJob.error job) ∧
         doc !! "status" =
           Some (VStr (if bool_decide (s = ERROR) then "error" else "connected")).
Proof.
  intros Hs. unfold writes, Connector.sync_done, SyncJob.terminated.
  rewrite Hs. unfold mbind, M_bind, lift, now. cbn.
  destruct (bool_decide (s ∈ [ERROR; COMPLETED; CANCELED]));
    (eexists; split; [rewrite index_update_calls; reflexivity|]);
    (split; [reflexivity|]);
    destruct (bool_decide (s = ERROR)), (is_None (SyncJob.error job));
    split; reflexivity.
Qed.

(** C9 (amended): whatever the job, [sync_done] writes the top-level
    [error] field with the value of [last_sync_error]; after a job whose
    status is not error this is the job's own error, so the field is
    cleared (set to null) exactly when the job records no error. *)
Theorem sync_done_error_field self (found : option ESDocument) w :
  (∀ j, found = Some j → ∃ s, SyncJob.status j = Ok s) →
  ∃ doc, writes (Connector.sync_done E self found) w (id self) doc ∧
         is_Some (doc !! "error") ∧
         doc !! "error" = doc !! "last_sync_error" ∧
         (∀ j s, found = Some j → SyncJob.status j = Ok s → s ≠ ERROR →
                 doc !! "error" = Some (SyncJob.error j) ∧
                 (is_None (SyncJob.error j) = true → doc !! "error" = Some VNone)).
Proof.
  intros Hjob. destruct found as [j|].
  - destruct (Hjob j eq_refl) as [s Hs].
    unfold writes, Connector.sync_done, SyncJob.terminated.
    rewrite Hs. unfold mbind, M_bind, lift, now. cbn.
    destruct (bool_decide (s ∈ [ERROR; COMPLETED; CANCELED]));
      (eexists; split; [rewrite index_update_calls; reflexivity|]);
      (split; [by eexists|]); (split; [reflexivity|]);
      intros j' s' [= <-] Hs' Hne; rewrite Hs in Hs'; injection Hs' as <-;
      rewrite bool_decide_eq_false_2 by done; rewrite andb_false_r;
      (split; [reflexivity|]);
      intros HN; destruct (SyncJob.error j); try discriminate; reflexivity.
  - unfold writes, Connector.sync_done. unfold mbind, M_bind, lift, now. cbn.
    eexists; split; [rewrite index_update_calls; reflexivity|].
    split; [by eexists|]. split; [reflexivity|]. intros ?? [=].
Qed.

(** C6 (amended): [prepare] is a no-op when the configured connector id
    is not this connector's, and when the connector has a service type and
    a non-empty configuration.  When the ids agree, the configuration is
    empty, the configured service type is no key of the sources mapping,
    and the connector has a service type or the configured one is not the
    empty string, [prepare] raises [ServiceTypeNotSupportedError] without
    a write; so it does for a connector without service type when the
    sources mapping is empty and a service type is configured.  A connector
    without service type, with no service type configured either, makes
    [prepare] raise [ServiceTypeNotConfiguredError] instead. *)
Theorem prepare_cases self m w :
  (py_eq (VStr (id self)) (default (VStr "") (m !! "connector_id")) = false →
   no_op (Connector.prepare E self m) w self) ∧
  (is_None (Connector.service_type self) = false →
   configuration_is_empty E (Connector.configuration self) = Ok false →
   no_op (Connector.prepare E self m) w self) ∧
  (∀ srcs name,
     m !! "connector_id" = Some (VStr (id self)) →
     configuration_is_empty E (Connector.configuration self) = Ok true →
     m !! "sources" = Some (VDict srcs) →
     default (VStr "") (m !! "service_type") = VStr name →
     srcs !! name = None →
     is_None (Connector.service_type self) = false ∨ name ≠ "" →
     Connector.prepare E self m w = (Err (ServiceTypeNotSupportedError (VStr name)), w)) ∧
  (∀ name,
     m !! "connector_id" = Some (VStr (id self)) →
     is_None (Connector.service_type self) = true →
     configuration_is_empty E (Connector.configuration self) = Ok true →
     m !! "sources" = Some (VDict ∅) →
     m !! "service_type" = Some (VStr name) →
     name ≠ "" →
     Connector.prepare E self m w = (Err (ServiceTypeNotSupportedError (VStr name)), w)) ∧
  (m !! "connector_id" = Some (VStr (id self)) →
   is_None (Connector.service_type self) = true →
   truthy (default (VStr "") (m !! "service_type")) = false →
   Connector.prepare E self m w = (Err ServiceTypeNotConfiguredError, w)).
Proof.
  assert (Hself : py_eq (VStr (id self)) (VStr (id self)) = true).
  { cbn. apply String.eqb_refl. }
  assert (Hmain : ∀ srcs name,
     m !! "connector_id" = Some (VStr (id self)) →
     configuration_is_empty E (Connector.configuration self) = Ok true →
     m !! "sources" = Some (VDict srcs) →
     default (VStr "") (m !! "service_type") = VStr name →
     srcs !! name = None →
     is_None (Connector.service_type self) = false ∨ name ≠ "" →
     Connector.prepare E self m w = (Err (ServiceTypeNotSupportedError (VStr name)), w)).
  { intros srcs name Hid Hempty Hsrc Hname Hkey Hor.
    unfold Connector.prepare. rewrite Hid, Hname. cbn [default from_option Datatypes.id]. rewrite Hself.
    cbn [negb]. unfold mbind at 1, M_bind at 1, lift at 1.
    assert (Htruthy : is_None (Connector.service_type self) = true →
                      negb (truthy (VStr name)) = false).
    { intros HN. destruct Hor as [Hor|Hor]; [congruence|].
      cbn. rewrite negb_involutive. by apply String.eqb_neq. }
    destruct (is_None (Connector.service_type self)) eqn:HN.
    - rewrite (Htruthy eq_refl). unfold mbind, M_bind, lift, mret, M_ret, raise.
      rewrite Hempty. cbn. rewrite Hsrc. cbn. by rewrite Hkey.
    - rewrite Hempty. unfold mbind, M_bind, lift, mret, M_ret, raise.
      cbn. rewrite Hsrc. cbn. by rewrite Hkey. }
  split; [|split; [|split; [|split]]].
  - intros Hid. unfold no_op, Connector.prepare. by rewrite Hid.
  - intros HN Hcfg. unfold no_op, Connector.prepare.
    destruct (py_eq _ (default _ _)); [|done]. cbn [negb].
    rewrite HN, Hcfg. reflexivity.
  - exact Hmain.
  - intros name Hid HN Hempty Hsrc Hname Hne.
    apply (Hmain ∅ name); auto. by rewrite Hname.
  - intros Hid HN Hfalsy. unfold Connector.prepare.
    set (configured := default (VStr "") (m !! "service_type")) in *.
    rewrite Hid. cbn [default from_option Datatypes.id]. rewrite Hself.
    cbn [negb]. rewrite HN. unfold mbind, M_bind, lift, mret, M_ret, raise.
    cbn [fst snd]. by rewrite Hfalsy.
Qed.

Lemma first_match_without_validation before bundle after draft :
  Forall (λ b, ∃ d, getitem b (VStr "domain") = Ok d ∧
                    py_eq d (VStr Filtering.DEFAULT_DOMAIN) = false) before →
  bundle !! "domain" = Some (VStr Filtering.DEFAULT_DOMAIN) →
  bundle !! "draft" = Some draft →
  draft = VNone ∨ (∃ d, draft = VDict d ∧ d !! "validation" = None) →
  ∃ f, Filtering.first_match (before ++ VDict bundle :: after) "draft"
         Filtering.DEFAULT_DOMAIN = Ok f ∧
       Filter.has_validation_state f EDITED = Ok false.
Proof.
  intros Hbefore Hdom Hdraft Hshape.
  induction Hbefore as [|b before (d & Hd & Hne) _ IH]; cbn.
  - rewrite Hdom. cbn. rewrite Hdraft. cbn.
    destruct Hshape as [->|(d & -> & Hv)]; cbn.
    + by eexists.
    + rewrite Hv. by eexists.
  - rewrite Hd. cbn. rewrite Hne. exact IH.
Qed.

(** C10: a filter built from a dict without a "validation" key has the
    validation state "valid" and no errors, so it is not in state edited;
    and a connector whose default-domain draft has no validation block (or
    is null) is left alone by [validate_filtering]: no validator call, no
    write. *)
Theorem filter_without_validation :
  (∀ filter_ : gmap string value,
     filter_ !! "validation" = None →
     ∃ f, Filter.init (VDict filter_) = Ok f ∧
          Filter.items f = filter_ ∧
          Filter.validation f = VDict {[ "state" := VStr "valid"; "errors" := VList [] ]} ∧
          Filter.has_validation_state f EDITED = Ok false) ∧
  (∀ self before bundle after draft w,
     Connector.filtering self = VList (before ++ VDict bundle :: after) →
     Forall (λ b, ∃ d, getitem b (VStr "domain") = Ok d ∧
                       py_eq d (VStr Filtering.DEFAULT_DOMAIN) = false) before →
     bundle !! "domain" = Some (VStr Filtering.DEFAULT_DOMAIN) →
     bundle !! "draft" = Some draft →
     draft = VNone ∨ (∃ d, draft = VDict d ∧ d !! "validation" = None) →
     no_op (Connector.validate_filtering E self) w self).
Proof.
  split.
  - intros filter_ Hv. eexists. split; [reflexivity|]. cbn. rewrite Hv. done.
  - intros self before bundle after draft w Hf Hbefore Hdom Hdraft Hshape.
    destruct (first_match_without_validation before bundle after draft)
      as (f & Hget & Hstate); [done..|].
    unfold no_op, Connector.validate_filtering, Filtering.get_draft_filter.
    rewrite Hf. cbn [Filtering.get_filter]. rewrite Hget.
    by unfold mbind, M_bind, lift; rewrite Hstate.
Qed.

(** What [_terminate] writes, whatever the ingestion stats are: since
    [doc.update(ingestion_stats)] runs after the timestamps are set, a
    timestamp is in the patch when the method sets it or the stats bring
    one of that name. *)
Lemma terminate_timestamps_with_stats job target err stats metadata w :
  ∃ doc, writes (SyncJob._terminate E job target err stats metadata) w (id job) doc ∧
         (is_Some (doc !! "completed_at") ↔
            (target = COMPLETED ∨ target = ERROR ∨ target = CANCELED) ∨
            is_Some (default ∅ stats !! "completed_at")) ∧
         (is_Some (doc !! "canceled_at") ↔
            target = CANCELED ∨ is_Some (default ∅ stats !! "canceled_at")).
Proof.
  unfold writes, SyncJob._terminate.
  unfold mbind, M_bind, mret, M_ret, now.
  destruct (0 <? size (default ∅ metadata))%nat;
    destruct target; repeat case_bool_decide;
    try (exfalso; set_solver); cbn -[union];
    (eexists; split; [rewrite index_update_calls; reflexivity|]);
    rewrite ?lookup_insert_ne by done;
    rewrite !lookup_union_is_Some; eval_lookups;
    rewrite ?is_Some_alt; naive_solver.
Qed.

(** C4: [terminated] holds exactly for the statuses completed, error and
    canceled.  For ingestion stats that are counters, with no timestamp of
    their own, the patch of [_terminate] has a [completed_at] exactly when
    the target status is one of these three, and a [canceled_at] exactly
    when the target is canceled: [done] and [fail] write [completed_at]
    only, [cancel] writes both and [suspend] writes neither. *)
Theorem terminate_timestamps :
  (∀ job s, SyncJob.status job = Ok s →
            ∃ b, SyncJob.terminated job = Ok b ∧
                 (b = true ↔ s = COMPLETED ∨ s = ERROR ∨ s = CANCELED)) ∧
  (∀ job target err stats metadata w,
     default ∅ stats !! "completed_at" = None →
     default ∅ stats !! "canceled_at" = None →
     ∃ doc, writes (SyncJob._terminate E job target err stats metadata) w (id job) doc ∧
            (is_Some (doc !! "completed_at") ↔
               target = COMPLETED ∨ target = ERROR ∨ target = CANCELED) ∧
            (is_Some (doc !! "canceled_at") ↔ target = CANCELED)) ∧
  (∀ job message stats metadata w,
     default ∅ stats !! "completed_at" = None →
     default ∅ stats !! "canceled_at" = None →
     (∃ doc, writes (SyncJob.done E job stats metadata) w (id job) doc ∧
             is_Some (doc !! "completed_at") ∧ doc !! "canceled_at" = None) ∧
     (∃ doc, writes (SyncJob.fail E job message stats metadata) w (id job) doc ∧
             is_Some (doc !! "completed_at") ∧ doc !! "canceled_at" = None) ∧
     (∃ doc, writes (SyncJob.cancel E job stats metadata) w (id job) doc ∧
             is_Some (doc !! "completed_at") ∧ is_Some (doc !! "canceled_at")) ∧
     (∃ doc, writes (SyncJob.suspend E job stats metadata) w (id job) doc ∧
             doc !! "completed_at" = None ∧ doc !! "canceled_at" = None)).
Proof.
  assert (Hplain : ∀ job target err stats metadata w,
     default ∅ stats !! "completed_at" = None →
     default ∅ stats !! "canceled_at" = None →
     ∃ doc, writes (SyncJob._terminate E job target err stats metadata) w (id job) doc ∧
            (is_Some (doc !! "completed_at") ↔
               target = COMPLETED ∨ target = ERROR ∨ target = CANCELED) ∧
            (is_Some (doc !! "canceled_at") ↔ target = CANCELED)).
  { intros job target err stats metadata w Hc1 Hc2.
    destruct (terminate_timestamps_with_stats job target err stats metadata w)
      as (doc & Hw & H1 & H2).
    exists doc. split; [done|]. rewrite Hc1 in H1. rewrite Hc2 in H2.
    split; [rewrite H1|rewrite H2]; (split; [intros [?|[? [=]]]; done|by left]). }
  split; [|split; [exact Hplain|]].
  - intros job s Hs. unfold SyncJob.terminated. rewrite Hs. cbn.
    eexists. split; [reflexivity|]. rewrite bool_decide_eq_true.
    set_solver.
  - intros job message stats metadata w Hc1 Hc2.
    unfold SyncJob.done, SyncJob.fail, SyncJob.cancel, SyncJob.suspend.
    repeat split.
    + destruct (Hplain job COMPLETED VNone stats metadata w Hc1 Hc2) as (doc & Hw & H1 & H2).
      exists doc. split; [done|].
      split; [naive_solver|]. apply eq_None_not_Some. rewrite H2. done.
    + destruct (Hplain job ERROR (VStr message) stats metadata w Hc1 Hc2)
        as (doc & Hw & H1 & H2).
      exists doc. split; [done|].
      split; [naive_solver|]. apply eq_None_not_Some. rewrite H2. done.
    + destruct (Hplain job CANCELED VNone stats metadata w Hc1 Hc2) as (doc & Hw & H1 & H2).
      exists doc. split; [done|]. naive_solver.
    + destruct (Hplain job SUSPENDED VNone stats metadata w Hc1 Hc2) as (doc & Hw & H1 & H2).
      exists doc. split; [done|].
      split; apply eq_None_not_Some; [rewrite H1|rewrite H2];
        [intros [[=]|[[=]|[=]]]|intros [=]].
Qed.

(** C8: [sync_rules_enabled] is the disjunction of [feature_enabled] at
    the four names; [basic_rules_new] and [advanced_rules_new] read the
    nested [sync_rules.basic.enabled] and [sync_rules.advanced.enabled]
    with default false, [basic_rules_old] and [advanced_rules_old] the
    flat [filtering_rules] and [filtering_advanced_config]; every other
    name gives false. *)
Theorem sync_rules_enabled_is_or (features : value) :
  (∀ a b c d,
     Features.feature_enabled features (VStr "basic_rules_new") = Ok a →
     Features.feature_enabled features (VStr "advanced_rules_new") = Ok b →
     Features.feature_enabled features (VStr "basic_rules_old") = Ok c →
     Features.feature_enabled features (VStr "advanced_rules_old") = Ok d →
     Features.sync_rules_enabled features =
       Ok (truthy a || truthy b || truthy c || truthy d)) ∧
  Features.feature_enabled features (VStr "basic_rules_new") =
    Ok (Features.nested_get features ["sync_rules"; "basic"; "enabled"] (VBool false)) ∧
  Features.feature_enabled features (VStr "advanced_rules_new") =
    Ok (Features.nested_get features ["sync_rules"; "advanced"; "enabled"] (VBool false)) ∧
  (∀ m group rules v,
     features = VDict m → m !! "sync_rules" = Some (VDict rules) →
     rules !! group = Some (VDict v) →
     Features.nested_get features ["sync_rules"; group; "enabled"] (VBool false) =
       match v !! "enabled" with
       | Some VNone | None => VBool false
       | Some flag => flag
       end) ∧
  (∀ m, features = VDict m → m !! "sync_rules" = None →
        Features.feature_enabled features (VStr "basic_rules_new") = Ok (VBool false) ∧
        Features.feature_enabled features (VStr "advanced_rules_new") = Ok (VBool false)) ∧
  (∀ m, features = VDict m →
        Features.feature_enabled features (VStr "basic_rules_old") =
          Ok (default (VBool false) (m !! "filtering_rules")) ∧
        Features.feature_enabled features (VStr "advanced_rules_old") =
          Ok (default (VBool false) (m !! "filtering_advanced_config"))) ∧
  (∀ name,
     name ∉ [VStr "basic_rules_new"; VStr "advanced_rules_new";
             VStr "basic_rules_old"; VStr "advanced_rules_old"] →
     Features.feature_enabled features name = Ok (VBool false)).
Proof.
  split; [|split; [|split; [|split; [|split; [|split]]]]].
  - intros a b c d Ha Hb Hc Hd. unfold Features.sync_rules_enabled.
    unfold Features.BASIC_RULES_NEW, Features.BASIC_RULES_OLD,
      Features.ADVANCED_RULES_NEW, Features.ADVANCED_RULES_OLD.
    rewrite Ha, Hb, Hc, Hd. cbn.
    by destruct (truthy a), (truthy b), (truthy c), (truthy d).
  - reflexivity.
  - reflexivity.
  - intros m group rules v -> Hm Hr. cbn. rewrite Hm. cbn. rewrite Hr. cbn.
    destruct (v !! "enabled") as [[]|]; reflexivity.
  - intros m -> Hm. cbn. rewrite Hm. done.
  - intros m ->. done.
  - intros name Hname. unfold Features.feature_enabled.
    destruct name as [| | |s| |]; try reflexivity.
    repeat match goal with
           | |- context [ String.eqb s ?n ] =>
               destruct (String.eqb_spec s n) as [->|_];
               [exfalso; apply Hname; set_solver|]
           end.
    reflexivity.
Qed.
End ConnectorProperties.

(** *** The theorems above at the sample documents *)

Lemma next_sync_cases_witness :
  Connector.next_sync Samples.env Samples.connector_sync_now = Ok 0 ∧
  Connector.next_sync Samples.env Samples.connector_disabled = Ok (-1) ∧
  Connector.next_sync Samples.env Samples.bare_connector = Ok (-1) ∧
  Connector.next_sync Samples.env Samples.connector_scheduled = Ok 60.
Proof.
  split; [|split; [|split]].
  - apply (proj1 (proj2 (next_sync_cases Samples.env Samples.connector_sync_now))).
    reflexivity.
  - apply (proj1 (proj2 (proj2 (next_sync_cases Samples.env Samples.connector_disabled)))
             {[ "enabled" := VBool false ]}); reflexivity.
  - apply (proj1 (proj2 (proj2 (next_sync_cases Samples.env Samples.bare_connector))) ∅);
      reflexivity.
  - apply (proj2 (proj2 (proj2 (next_sync_cases Samples.env Samples.connector_scheduled)))
             {[ "enabled" := VBool true; "interval" := VStr "0 0 * * * ?" ]});
      reflexivity.
Defined.

Lemma sync_done_job_present_witness :
  ∃ doc, writes (Connector.sync_done Samples.env Samples.bare_connector
                   (Some Samples.job_failed)) Samples.w0 "c1" doc ∧
         doc !! "last_sync_status" = Some (VStr "error") ∧
         doc !! "last_sync_error" = Some (VStr "unknown error") ∧
         doc !! "status" = Some (VStr "error").
Proof.
  apply (sync_done_job_present Samples.env Samples.bare_connector Samples.job_failed
           ERROR Samples.w0).
  reflexivity.
Defined.

Lemma sync_done_error_field_witness :
  ∃ doc, writes (Connector.sync_done Samples.env Samples.bare_connector
                   (Some Samples.job_completed)) Samples.w0 "c1" doc ∧
         doc !! "error" = Some VNone.
Proof.
  destruct (sync_done_error_field Samples.env Samples.bare_connector
              (Some Samples.job_completed) Samples.w0) as (doc & Hw & _ & _ & Hclear).
  - intros j [= <-]. exists COMPLETED. reflexivity.
  - exists doc. split; [exact Hw|].
    apply (Hclear Samples.job_completed COMPLETED); [reflexivity..|discriminate|reflexivity].
Defined.

(** C9, counterexample: a completed job that records an error leaves that
    error, not null, in the connector's [error] field. *)
Lemma sync_done_keeps_job_error :
  SyncJob.status Samples.job_completed_with_error = Ok COMPLETED ∧
  COMPLETED ≠ ERROR ∧
  ∃ doc, writes (Connector.sync_done Samples.env Samples.bare_connector
                   (Some Samples.job_completed_with_error)) Samples.w0 "c1" doc ∧
         doc !! "error" = Some (VStr "boom") ∧
         doc !! "error" ≠ Some VNone.
Proof.
  split; [reflexivity|]. split; [discriminate|].
  eexists. split; [reflexivity|]. split; [reflexivity|discriminate].
Qed.

Lemma terminate_timestamps_witness :
  (∃ b, SyncJob.terminated Samples.job_completed = Ok b ∧ b = true) ∧
  (∃ doc, writes (SyncJob.cancel Samples.env Samples.job_completed None None)
            Samples.w0 "j1" doc ∧
          is_Some (doc !! "completed_at") ∧ is_Some (doc !! "canceled_at")) ∧
  (∃ doc, writes (SyncJob.suspend Samples.env Samples.job_completed None None)
            Samples.w0 "j1" doc ∧
          doc !! "completed_at" = None ∧ doc !! "canceled_at" = None) ∧
  (∃ doc, writes (SyncJob._terminate Samples.env Samples.job_completed CANCELED VNone
                    (Some Samples.counter_stats) None) Samples.w0 "j1" doc ∧
          is_Some (doc !! "completed_at") ∧ is_Some (doc !! "canceled_at")).
Proof.
  split; [|split; [|split]].
  - destruct (proj1 (terminate_timestamps Samples.env) Samples.job_completed COMPLETED)
      as (b & Hb & Hiff); [reflexivity|].
    exists b. split; [exact Hb|]. apply Hiff. by left.
  - apply (proj2 (proj2 (terminate_timestamps Samples.env))
             Samples.job_completed "" None None Samples.w0); reflexivity.
  - apply (proj2 (proj2 (terminate_timestamps Samples.env))
             Samples.job_completed "" None None Samples.w0); reflexivity.
  - destruct (proj1 (proj2 (terminate_timestamps Samples.env)) Samples.job_completed
                CANCELED VNone (Some Samples.counter_stats) None Samples.w0)
      as (doc & Hw & Hcompleted & Hcanceled); [reflexivity..|].
    exists doc. split; [exact Hw|]. split; [apply Hcompleted; auto|by apply Hcanceled].
Defined.

Lemma prepare_cases_witness :
  no_op (Connector.prepare Samples.env Samples.bare_connector
           Samples.config_other_connector) Samples.w0 Samples.bare_connector ∧
  no_op (Connector.prepare Samples.env Samples.connector_configured
           Samples.config_jira_unsupported) Samples.w0 Samples.connector_configured ∧
  Connector.prepare Samples.env Samples.connector_typed Samples.config_untyped Samples.w0 =
    (Err (ServiceTypeNotSupportedError (VStr "")), Samples.w0) ∧
  Connector.prepare Samples.env Samples.bare_connector Samples.config_jira_unsupported
    Samples.w0 = (Err (ServiceTypeNotSupportedError (VStr "jira")), Samples.w0).
Proof.
  split; [|split; [|split]].
  - apply (proj1 (prepare_cases Samples.env Samples.bare_connector
                    Samples.config_other_connector Samples.w0)).
    reflexivity.
  - apply (proj1 (proj2 (prepare_cases Samples.env Samples.connector_configured
                           Samples.config_jira_unsupported Samples.w0)));
      reflexivity.
  - apply (proj1 (proj2 (proj2 (prepare_cases Samples.env Samples.connector_typed
                                  Samples.config_untyped Samples.w0))) ∅ "");
      try reflexivity.
    left. reflexivity.
  - apply (proj1 (proj2 (proj2 (proj2 (prepare_cases Samples.env Samples.bare_connector
                                  Samples.config_jira_unsupported Samples.w0)))) "jira");
      try reflexivity.
    discriminate.
Defined.

(** C6, counterexample: the connector has the configured id, no service
    type and an empty configuration, the sources mapping is empty and has no
    key for the (absent) configured service type; [prepare] raises
    [ServiceTypeNotConfiguredError], not [ServiceTypeNotSupportedError]. *)
Lemma prepare_without_configured_type :
  Samples.config_untyped !! "connector_id" = Some (VStr (id Samples.bare_connector)) ∧
  is_None (Connector.service_type Samples.bare_connector) = true ∧
  configuration_is_empty Samples.env (Connector.configuration Samples.bare_connector)
    = Ok true ∧
  Samples.config_untyped !! "sources" = Some (VDict ∅) ∧
  contains (default (VStr "") (Samples.config_untyped !! "service_type")) (VDict ∅)
    = Ok false ∧
  Connector.prepare Samples.env Samples.bare_connector Samples.config_untyped Samples.w0 =
    (Err ServiceTypeNotConfiguredError, Samples.w0).
Proof. repeat split; reflexivity. Qed.

Lemma sync_rules_enabled_is_or_witness :
  Features.sync_rules_enabled Samples.features_legacy = Ok true.
Proof.
  apply (proj1 (sync_rules_enabled_is_or Samples.features_legacy)
           (VBool false) (VBool false) (VBool true) (VBool false));
    reflexivity.
Defined.

Lemma filter_without_validation_witness :
  (∃ f, Filter.init (VDict {[ "rules" := VList [] ]}) = Ok f ∧
        Filter.has_validation_state f EDITED = Ok false) ∧
  no_op (Connector.validate_filtering Samples.env Samples.connector_with_draft)
    Samples.w0 Samples.connector_with_draft.
Proof.
  split.
  - destruct (proj1 (filter_without_validation Samples.env) {[ "rules" := VList [] ]})
      as (f & Hf & _ & _ & Hstate); [reflexivity|].
    exists f. split; [exact Hf|exact Hstate].
  - apply (proj2 (filter_without_validation Samples.env) Samples.connector_with_draft
             [VDict {[ "domain" := VStr "OTHER"; "draft" := VNone ]}]
             {[ "domain" := VStr "DEFAULT"; "draft" := VDict {[ "rules" := VList [] ]} ]}
             [] (VDict {[ "rules" := VList [] ]}) Samples.w0).
    + reflexivity.
    + constructor; [|constructor]. exists (VStr "OTHER"). split; reflexivity.
    + reflexivity.
    + reflexivity.
    + right. exists {[ "rules" := VList [] ]}. split; reflexivity.
Defined.

(** ** Facts about the store, [reify] and [deepcopy] *)
Module StoreFacts.
Import Store.
#[local] Open Scope nat_scope.

Lemma reify_map_Some f m M :
  reify_map f m = Some M ↔ map_Forall (λ _ c, is_Some (f c)) m ∧ M = omap f m.
Proof. unfold reify_map. case_decide; naive_solver. Qed.

(** A map of copies reads as the map of the originals. *)
Lemma reify_map_pointwise f g (m m' : gmap string ref) M :
  reify_map f m = Some M →
  (∀ key, match m !! key, m' !! key with
          | Some c, Some v => ∀ t, f c = Some t → g v = Some t
          | None, None => True
          | _, _ => False
          end) →
  reify_map g m' = Some M.
Proof.
  intros [Hall ->]%reify_map_Some Hpt. apply reify_map_Some. split.
  - intros key v Hv. specialize (Hpt key). rewrite Hv in Hpt.
    destruct (m !! key) as [c|] eqn:Hc; [|done].
    destruct (Hall key c Hc) as [t Ht]. eauto.
  - apply map_eq. intros key. rewrite !lookup_omap. specialize (Hpt key).
    destruct (m !! key) as [c|] eqn:Hc, (m' !! key) as [v|] eqn:Hv; try done.
    cbn. destruct (Hall key c Hc) as [t Ht]. rewrite Ht. symmetry. eauto.
Qed.

(** What an object holds decides its tree. *)
Lemma reify_obj_ext f g o t :
  reify_obj f o = Some t →
  (∀ c tc, holds o c → f c = Some tc → g c = Some tc) →
  reify_obj g o = Some t.
Proof.
  destruct o as [elems|cls items attrs]; cbn; intros Ht Hext.
  - apply fmap_Some in Ht as (ts & Hts & ->). apply fmap_Some. exists ts. split; [|done].
    apply mapM_Some. apply mapM_Some in Hts.
    clear -Hts Hext. induction Hts; constructor; [|apply IHHts].
    + apply Hext; [apply list_elem_of_here|done].
    + intros c tc Hc. apply Hext. by apply list_elem_of_further.
  - apply bind_Some in Ht as (I & HI & (A & HA & [= <-])%bind_Some).
    rewrite (reify_map_pointwise f g items items I HI).
    2:{ intros key. destruct (items !! key) eqn:Hk; [|done]. intros ?. apply Hext. eauto. }
    cbn. rewrite (reify_map_pointwise f g attrs attrs A HA).
    2:{ intros key. destruct (attrs !! key) eqn:Hk; [|done]. intros ?. apply Hext. eauto. }
    done.
Qed.

Lemma reify_obj_holds f o t c :
  reify_obj f o = Some t → holds o c → is_Some (f c).
Proof.
  destruct o as [elems|cls items attrs]; cbn; intros Ht Hc.
  - apply fmap_Some in Ht as (ts & Hts & _). apply mapM_Some in Hts.
    apply list_elem_of_lookup in Hc as [i Hi].
    destruct (Forall2_lookup_l _ _ _ _ _ Hts Hi) as (tx & _ & Htx). eauto.
  - apply bind_Some in Ht as (I & [HI _]%reify_map_Some &
                               (A & [HA _]%reify_map_Some & _)%bind_Some).
    destruct Hc as [[key Hk]|[key Hk]]; [exact (HI key c Hk)|exact (HA key c Hk)].
Qed.

Lemma reify_obj_Some k h l t :
  reify (S k) h (RObj l) = Some t ↔
  ∃ o, h !! l = Some o ∧ reify_obj (reify k h) o = Some t.
Proof. cbn. apply bind_Some. Qed.

(** A tree read from a store is read from every store that has the same
    objects at the same places. *)
Lemma reify_sub k : ∀ h h2 x t,
  (∀ l o, h !! l = Some o → h2 !! l = Some o) →
  reify k h x = Some t → reify k h2 x = Some t.
Proof.
  induction k as [|k IH]; intros h h2 x t Hsub; destruct x; try done.
  rewrite !reify_obj_Some. intros (o & Ho & Ht). exists o. split; [eauto|].
  eapply reify_obj_ext; [exact Ht|]. intros c tc _. by apply IH.
Qed.

(** More fuel reads the same tree. *)
Lemma reify_S k : ∀ h x t, reify k h x = Some t → reify (S k) h x = Some t.
Proof.
  induction k as [|k IH]; intros h x t; destruct x; try done.
  rewrite !reify_obj_Some. intros (o & Ho & Ht). exists o. split; [done|].
  eapply reify_obj_ext; [exact Ht|]. intros c tc _. apply IH.
Qed.

(** The objects a successful [reify] passes are in the store. *)
Lemma reach_in_store h x l :
  reach h x l → ∀ k t, reify k h x = Some t → l < length h.
Proof.
  induction 1 as [l|l o x l' Ho Hx _ IH]; intros k t Ht.
  - destruct k; [done|]. apply reify_obj_Some in Ht as (o & Ho & _).
    by eapply lookup_lt_Some.
  - destruct k; [done|]. apply reify_obj_Some in Ht as (o' & Ho' & Ht).
    assert (o' = o) as -> by congruence.
    destruct (reify_obj_holds _ _ _ _ Ht Hx) as [tx Htx]. eauto.
Qed.

(** Two maps with the same keys and related values. *)
Definition map_rel {A B} (R : A → B → Prop) (m : gmap string A) (m' : gmap string B) : Prop :=
  ∀ key, match m !! key, m' !! key with
         | Some c, Some v => R c v
         | None, None => True
         | _, _ => False
         end.

(** Two objects of the same shape holding related values. *)
Definition obj_rel (R : ref → ref → Prop) (o o' : obj) : Prop :=
  match o, o' with
  | OList elems, OList elems' => Forall2 R elems elems'
  | OMap cls items attrs, OMap cls' items' attrs' =>
      cls = cls' ∧ map_rel R items items' ∧ map_rel R attrs attrs'
  | _, _ => False
  end.

Lemma reify_obj_rel R f g o o' t :
  obj_rel R o o' →
  (∀ c v tc, R c v → f c = Some tc → g v = Some tc) →
  reify_obj f o = Some t → reify_obj g o' = Some t.
Proof.
  destruct o as [elems|cls items attrs], o' as [elems'|cls' items' attrs']; try done; cbn.
  - intros HR Hfg (ts & Hts & ->)%fmap_Some. apply fmap_Some. exists ts. split; [|done].
    apply mapM_Some. apply mapM_Some in Hts. revert ts Hts.
    induction HR as [|c v elems elems' Hcv _ IH]; intros ts Hts.
    + by inversion Hts.
    + inversion Hts as [|? tc ? ts' Hc Hts']; subst. constructor; eauto.
  - intros (<- & HI & HA) Hfg (I & HtI & (A & HtA & [= <-])%bind_Some)%bind_Some.
    rewrite (reify_map_pointwise f g items items' I HtI).
    2:{ intros key. specialize (HI key).
        destruct (items !! key), (items' !! key); try done. eauto. }
    cbn. rewrite (reify_map_pointwise f g attrs attrs' A HtA).
    2:{ intros key. specialize (HA key).
        destruct (attrs !! key), (attrs' !! key); try done. eauto. }
    done.
Qed.

Lemma holds_put s v o c : holds (put s v o) c → c = v ∨ holds o c.
Proof.
  destruct s, o as [elems|cls items attrs]; cbn; auto.
  - intros [?|?%list_elem_of_singleton]%elem_of_app; auto.
  - intros [[k Hk]|?]; [|by eauto].
    apply lookup_insert_Some in Hk as [[_ ->]|[_ Hk]]; eauto.
  - intros [?|[k Hk]]; [by eauto|].
    apply lookup_insert_Some in Hk as [[_ ->]|[_ Hk]]; eauto.
Qed.

Section Deepcopy.
(** The store [deepcopy] is called in. *)
Variable h0 : heap.

(** [h2] has the objects of [h], but for those at the places [Q]. *)
Definition frame (Q : loc → Prop) (h h2 : heap) : Prop :=
  ∀ l, l < length h → ¬ Q l → h2 !! l = h !! l.

(** [y] is a finished copy of [x]: it reads as [x] did in [h0], whatever
    is stored at the places [Q]. *)
Definition copy_of (Q : loc → Prop) (h : heap) (x y : ref) : Prop :=
  ∀ k t, reify k h0 x = Some t → ∀ h2, frame Q h h2 → reify k h2 y = Some t.

(** The object at [l] lies strictly above [x]. *)
Definition deeper (l : loc) (x : ref) : Prop :=
  ∀ k, is_Some (reify k h0 (RObj l)) → ∃ k', k' < k ∧ is_Some (reify k' h0 x).

(** [v] is an atom or an object allocated since [h0]. *)
Definition fresh (h : heap) (v : ref) : Prop :=
  match v with RObj y => length h0 ≤ y < length h | _ => True end.

(** The invariant of a run of [deepcopy]: [Q] are the copies under
    construction, [X] the values still to be copied at this level. *)
Definition inv (Q : loc → Prop) (X : ref → Prop) (memo : gmap loc loc) (h : heap)
  : Prop :=
  length h0 ≤ length h ∧
  (∀ l, l < length h0 → h !! l = h0 !! l) ∧
  (∀ q, Q q → q < length h) ∧
  (∀ l o c, length h0 ≤ l → h !! l = Some o → holds o c → fresh h c) ∧
  (∀ l y, memo !! l = Some y →
          fresh h (RObj y) ∧
          ((Q y ∧ ∀ x, X x → deeper l x) ∨ copy_of Q h (RObj l) (RObj y))).

(** The memo after a call: what it had, and finished copies made since. *)
Definition memo_grown (Q : loc → Prop) (memo : gmap loc loc) (h : heap)
    (memo' : gmap loc loc) (h' : heap) : Prop :=
  ∀ l y, memo' !! l = Some y →
         memo !! l = Some y ∨
         (length h ≤ y < length h' ∧ copy_of Q h' (RObj l) (RObj y)).

Definition post (Q : loc → Prop) (memo : gmap loc loc) (h : heap) (x : ref)
    (r : ref * gmap loc loc * heap) : Prop :=
  length h ≤ length r.2 ∧
  (∀ l, l < length h → r.2 !! l = h !! l) ∧
  fresh r.2 r.1.1 ∧
  copy_of Q r.2 x r.1.1 ∧
  (∀ l o c, length h0 ≤ l → r.2 !! l = Some o → holds o c → fresh r.2 c) ∧
  memo_grown Q memo h r.1.2 r.2.

(** What the induction proves of [deepcopy n]. *)
Definition copies (n : nat) (rec : copier) : Prop :=
  ∀ Q X x memo h,
    X x → is_Some (reify n h0 x) → inv Q X memo h →
    ∃ r, rec x memo h = Some r ∧ post Q memo h x r.

Lemma fresh_mono h h' v : length h ≤ length h' → fresh h v → fresh h' v.
Proof. destruct v; cbn; lia. Qed.

Lemma copy_of_mono Q Q' h h' x v :
  copy_of Q h x v →
  (∀ h2, frame Q' h' h2 → frame Q h h2) →
  copy_of Q' h' x v.
Proof. intros Hc Hf k t Ht h2 Hh2. eapply Hc; eauto. Qed.

Lemma frame_grow Q Q' h h' h2 :
  length h ≤ length h' →
  (∀ l, l < length h → ¬ Q l → ¬ Q' l ∧ h' !! l = h !! l) →
  frame Q' h' h2 → frame Q h h2.
Proof.
  intros Hlen Hsame Hf l Hl HQ. destruct (Hsame l Hl HQ) as [HQ' <-].
  apply Hf; [lia|done].
Qed.

Lemma deeper_irrefl l k : deeper l (RObj l) → ¬ is_Some (reify k h0 (RObj l)).
Proof.
  intros Hd. induction k as [k IH] using lt_wf_ind. intros Hk.
  destruct (Hd k Hk) as (k' & Hlt & Hk'). exact (IH k' Hlt Hk').
Qed.

Lemma deeper_child l o c : h0 !! l = Some o → holds o c → deeper l c.
Proof.
  intros Ho Hc k [t Ht]. destruct k; [done|].
  apply reify_obj_Some in Ht as (o' & Ho' & Ht).
  assert (o' = o) as -> by congruence.
  exists k. split; [lia|]. by eapply reify_obj_holds.
Qed.

Lemma deeper_trans l l' c : deeper l (RObj l') → deeper l' c → deeper l c.
Proof.
  intros H1 H2 k Hk. destruct (H1 k Hk) as (k1 & Hlt1 & Hk1).
  destruct (H2 k1 Hk1) as (k2 & Hlt2 & Hk2). exists k2. split; [lia|done].
Qed.

Lemma inv_post Q X memo h x r :
  inv Q X memo h → post Q memo h x r → inv Q X r.1.2 r.2.
Proof.
  destruct r as [[v memo'] h']. cbn.
  intros (Hlen & Hold & HQ & Hfresh & Hmemo) (Hlen' & Hsame & Hv & Hcopy & Hfresh' & Hgrown).
  cbn in *. split; [lia|]. split; [|split; [|split; [done|]]].
  - intros l Hl. rewrite Hsame by lia. by apply Hold.
  - intros q Hq. specialize (HQ q Hq). lia.
  - intros l y Hy. destruct (Hgrown l y Hy) as [Hy'|[Hrange Hdone]].
    + destruct (Hmemo l y Hy') as [Hfy Hcase]. split; [by eapply fresh_mono|].
      destruct Hcase as [?|Hdone]; [by left|right].
      eapply copy_of_mono; [exact Hdone|]. intros h2. apply frame_grow; [done|].
      intros l' Hl' HQ'. split; [done|]. by apply Hsame.
    + split; [cbn; lia|by right].
Qed.

(** Storing into a copy under construction keeps the invariant. *)
Lemma inv_alter Q X memo h y s v :
  inv Q X memo h → Q y → length h0 ≤ y → fresh h v →
  inv Q X memo (alter (put s v) y h).
Proof.
  intros (Hlen & Hold & HQ & Hfresh & Hmemo) Hy Hy0 Hv.
  assert (Hfm : ∀ c, fresh h c → fresh (alter (put s v) y h) c).
  { intros c. apply fresh_mono. by rewrite length_alter. }
  split; [by rewrite length_alter|]. split; [|split; [|split]].
  - intros l Hl. rewrite list_lookup_alter_ne by lia. by apply Hold.
  - intros q Hq. rewrite length_alter. by apply HQ.
  - intros l o c Hl Ho Hc. apply Hfm.
    destruct (decide (l = y)) as [->|Hne].
    + rewrite list_lookup_alter_eq in Ho.
      destruct (h !! y) as [o'|] eqn:Ho'; [|done]. injection Ho as <-.
      apply holds_put in Hc as [->|Hc]; [done|]. by eapply Hfresh.
    + rewrite list_lookup_alter_ne in Ho by done. by eapply Hfresh.
  - intros l y' Hy'. destruct (Hmemo l y' Hy') as [Hfy Hcase].
    split; [by apply Hfm|]. destruct Hcase as [?|Hdone]; [by left|right].
    eapply copy_of_mono; [exact Hdone|]. intros h2. apply frame_grow.
    + by rewrite length_alter.
    + intros l' Hl' HQ'. split; [done|]. apply list_lookup_alter_ne. by intros ->.
Qed.

Lemma memo_grown_trans Q memo h memo1 h1 memo2 h2 :
  length h ≤ length h1 → length h1 ≤ length h2 →
  (∀ l, l < length h1 → ¬ Q l → h2 !! l = h1 !! l) →
  memo_grown Q memo h memo1 h1 → memo_grown Q memo1 h1 memo2 h2 →
  memo_grown Q memo h memo2 h2.
Proof.
  intros Hl1 Hl2 Hsame H1 H2 l y Hy.
  destruct (H2 l y Hy) as [Hy1|[Hr Hd]]; [|right; split; [lia|done]].
  destruct (H1 l y Hy1) as [?|[Hr Hd]]; [by left|right]. split; [lia|].
  eapply copy_of_mono; [exact Hd|]. intros h3. apply frame_grow; [done|]. auto.
Qed.

(** One turn of a copying loop. *)
Lemma copy_child_ok n rec Q X y s c memo h o :
  copies n rec → X c → is_Some (reify n h0 c) → inv Q X memo h →
  Q y → length h0 ≤ y → h !! y = Some o →
  ∃ v memo' h',
    copy_child rec y s c (Some (memo, h)) = Some (memo', h') ∧
    length h ≤ length h' ∧
    (∀ l, l < length h → l ≠ y → h' !! l = h !! l) ∧
    h' !! y = Some (put s v o) ∧
    copy_of Q h' c v ∧
    inv Q X memo' h' ∧
    memo_grown Q memo h memo' h'.
Proof.
  intros Hrec Hc Hsome Hinv Hy Hy0 Ho.
  destruct (Hrec Q X c memo h Hc Hsome Hinv) as ([[v memo'] h1] & Hr & Hpost).
  pose proof (inv_post _ _ _ _ _ _ Hinv Hpost) as Hinv1.
  destruct Hpost as (Hlen & Hsame & Hv & Hcopy & Hfresh & Hgrown). cbn in *.
  assert (Hframe : ∀ h2, frame Q (alter (put s v) y h1) h2 → frame Q h1 h2).
  { intros h2. apply frame_grow; [by rewrite length_alter|].
    intros l Hl HQ. split; [done|]. apply list_lookup_alter_ne. by intros ->. }
  exists v, memo', (alter (put s v) y h1). cbn. rewrite Hr. cbn.
  split; [done|]. split; [by rewrite length_alter|]. split; [|split; [|split; [|split]]].
  - intros l Hl Hne. rewrite list_lookup_alter_ne by done. by apply Hsame.
  - rewrite list_lookup_alter_eq, Hsame, Ho; [done|]. by eapply lookup_lt_Some.
  - eapply copy_of_mono; [exact Hcopy|exact Hframe].
  - by apply inv_alter.
  - intros l y' Hy'. destruct (Hgrown l y' Hy') as [?|[Hr' Hd]]; [by left|right].
    rewrite length_alter. split; [done|]. eapply copy_of_mono; [exact Hd|exact Hframe].
Qed.

(** The loop of [_deepcopy_list]. *)
Lemma copy_elems_ok n rec Q X y :
  copies n rec → Q y → length h0 ≤ y →
  ∀ elems memo h acc,
    Forall (λ c, X c ∧ is_Some (reify n h0 c)) elems →
    inv Q X memo h → h !! y = Some (OList acc) →
    ∃ vs memo' h',
      copy_elems rec y elems (Some (memo, h)) = Some (memo', h') ∧
      length h ≤ length h' ∧
      (∀ l, l < length h → l ≠ y → h' !! l = h !! l) ∧
      h' !! y = Some (OList (acc ++ vs)) ∧
      Forall2 (copy_of Q h') elems vs ∧
      inv Q X memo' h' ∧
      memo_grown Q memo h memo' h'.
Proof.
  intros Hrec Hy Hy0 elems.
  induction elems as [|c elems IH]; intros memo h acc Hall Hinv Ho.
  - exists [], memo, h. rewrite app_nil_r. split_and!; try done.
    intros l y' ?. by left.
  - apply Forall_cons in Hall as [[Hc Hsome] Hall].
    destruct (copy_child_ok n rec Q X y Elem c memo h _ Hrec Hc Hsome Hinv Hy Hy0 Ho)
      as (v & memo1 & h1 & Hstep & Hlen1 & Hsame1 & Ho1 & Hcopy1 & Hinv1 & Hgrown1).
    destruct (IH memo1 h1 (acc ++ [v]) Hall Hinv1 Ho1)
      as (vs & memo2 & h2 & Hloop & Hlen2 & Hsame2 & Ho2 & Hcopy2 & Hinv2 & Hgrown2).
    assert (Hsame2' : ∀ l, l < length h1 → ¬ Q l → h2 !! l = h1 !! l).
    { intros l Hl HQ. apply Hsame2; [done|]. by intros ->. }
    exists (v :: vs), memo2, h2. unfold copy_elems in *. cbn [foldl]. rewrite Hstep.
    split; [done|]. split; [lia|]. split; [|split; [|split; [|split]]].
    + intros l Hl Hne. rewrite Hsame2 by (done || lia). by apply Hsame1.
    + by rewrite Ho2, <-app_assoc.
    + constructor; [|done]. eapply copy_of_mono; [exact Hcopy1|].
      intros h3. apply frame_grow; [done|]. auto.
    + done.
    + by eapply memo_grown_trans.
Qed.

(** The loops over the items and over the attributes of a dict. *)
Lemma copy_entries_ok n rec Q X y mk (fill : gmap string ref → obj → obj) :
  (∀ key v cm o, put (mk key) v (fill cm o) = fill (<[key := v]> cm) o) →
  (∀ o, fill ∅ o = o) →
  copies n rec → Q y → length h0 ≤ y →
  ∀ memo h o,
    inv Q X memo h → h !! y = Some o →
    ∀ m, map_Forall (λ _ c, X c ∧ is_Some (reify n h0 c)) m →
      ∃ cm memo' h',
        copy_entries rec y mk m (Some (memo, h)) = Some (memo', h') ∧
        length h ≤ length h' ∧
        (∀ l, l < length h → l ≠ y → h' !! l = h !! l) ∧
        h' !! y = Some (fill cm o) ∧
        map_rel (copy_of Q h') m cm ∧
        inv Q X memo' h' ∧
        memo_grown Q memo h memo' h'.
Proof.
  intros Hput Hfill Hrec Hy Hy0 memo h o Hinv Ho m. unfold copy_entries.
  apply (map_fold_weak_ind (λ r m,
    map_Forall (λ _ c, X c ∧ is_Some (reify n h0 c)) m →
    ∃ cm memo' h',
      r = Some (memo', h') ∧
      length h ≤ length h' ∧
      (∀ l, l < length h → l ≠ y → h' !! l = h !! l) ∧
      h' !! y = Some (fill cm o) ∧
      map_rel (copy_of Q h') m cm ∧
      inv Q X memo' h' ∧
      memo_grown Q memo h memo' h')); clear m.
  - intros _. exists ∅, memo, h. rewrite Hfill. split_and!; try done.
    intros l y' ?. by left.
  - intros key c m r Hkey IH Hall.
    apply map_Forall_insert in Hall as [[Hc Hsome] Hall]; [|done].
    destruct (IH Hall)
      as (cm & memo1 & h1 & -> & Hlen1 & Hsame1 & Ho1 & Hrel1 & Hinv1 & Hgrown1).
    destruct (copy_child_ok n rec Q X y (mk key) c memo1 h1 _
                Hrec Hc Hsome Hinv1 Hy Hy0 Ho1)
      as (v & memo2 & h2 & Hstep & Hlen2 & Hsame2 & Ho2 & Hcopy2 & Hinv2 & Hgrown2).
    assert (Hsame2' : ∀ l, l < length h1 → ¬ Q l → h2 !! l = h1 !! l).
    { intros l Hl HQ. apply Hsame2; [done|]. by intros ->. }
    exists (<[key := v]> cm), memo2, h2. rewrite Hstep, <-Hput.
    split; [done|]. split; [lia|]. split; [|split; [done|split; [|split]]].
    + intros l Hl Hne. rewrite Hsame2 by (done || lia). by apply Hsame1.
    + unfold map_rel in *. intros key'. specialize (Hrel1 key').
      destruct (decide (key' = key)) as [->|Hne].
      * by rewrite !lookup_insert_eq.
      * rewrite !lookup_insert_ne by done.
        destruct (m !! key'), (cm !! key'); try done.
        eapply copy_of_mono; [exact Hrel1|].
        intros h3. apply frame_grow; [done|]. auto.
    + done.
    + by eapply memo_grown_trans.
Qed.

Definition fill_items (cm : gmap string ref) (o : obj) : obj :=
  match o with
  | OMap cls items attrs => OMap cls (cm ∪ items) attrs
  | OList _ => o
  end.

Definition fill_attrs (cm : gmap string ref) (o : obj) : obj :=
  match o with
  | OMap cls items attrs => OMap cls items (cm ∪ attrs)
  | OList _ => o
  end.

(** What the loops of a node leave in the copy is a copy. *)
Lemma node_copied Q (Q' : loc → Prop) l y o o' h :
  h0 !! l = Some o → h !! y = Some o' → y < length h → ¬ Q y →
  (∀ q, Q q → Q' q) →
  obj_rel (copy_of Q' h) o o' →
  copy_of Q h (RObj l) (RObj y).
Proof.
  intros Ho Ho' Hy HQy HQ Hrel k t Ht h2 Hh2.
  destruct k; [done|]. apply reify_obj_Some in Ht as (o1 & Ho1 & Ht).
  assert (o1 = o) as -> by congruence.
  apply reify_obj_Some. exists o'. split; [by rewrite (Hh2 y Hy HQy)|].
  eapply reify_obj_rel; [exact Hrel| |exact Ht].
  intros c v tc Hcv Hc. apply (Hcv k tc Hc).
  intros l' Hl' HQ'. apply Hh2; [done|]. auto.
Qed.

(** The invariant at the start of the loops of a node: the new, empty
    copy is entered in the memo and is under construction. *)
Lemma inv_node Q X memo h l o e :
  inv Q X memo h → X (RObj l) → h0 !! l = Some o → (∀ c, ¬ holds e c) →
  inv (λ q, Q q ∨ q = length h) (holds o) (<[l := length h]> memo) (h ++ [e]).
Proof.
  intros (Hlen & Hold & HQ & Hfresh & Hmemo) Hx Ho He.
  assert (Hfm : ∀ c, fresh h c → fresh (h ++ [e]) c).
  { intros c. apply fresh_mono. rewrite length_app. lia. }
  split; [rewrite length_app; lia|]. split; [|split; [|split]].
  - intros l' Hl'. rewrite lookup_app_l by lia. by apply Hold.
  - intros q [Hq| ->]; rewrite length_app; cbn; [specialize (HQ q Hq)|]; lia.
  - intros l' o' c Hl' Ho' Hc. destruct (decide (l' < length h)) as [Hlt|Hge].
    + rewrite lookup_app_l in Ho' by done. apply Hfm. by eapply Hfresh.
    + assert (l' = length h) as ->.
      { apply lookup_lt_Some in Ho'. rewrite length_app in Ho'. cbn in Ho'. lia. }
      rewrite list_lookup_middle in Ho' by done. injection Ho' as <-.
      by destruct (He c).
  - intros l' y Hy. apply lookup_insert_Some in Hy as [[<- <-]|[Hne Hy]].
    + split; [cbn; rewrite length_app; cbn; lia|]. left. split; [by right|].
      intros c Hc. by eapply deeper_child.
    + destruct (Hmemo l' y Hy) as [Hfy Hcase]. split; [by apply Hfm|].
      destruct Hcase as [[HQy Hdeep]|Hdone].
      * left. split; [by left|]. intros c Hc.
        eapply deeper_trans; [by apply Hdeep|]. by eapply deeper_child.
      * right. eapply copy_of_mono; [exact Hdone|]. intros h2. apply frame_grow.
        { rewrite length_app. lia. }
        intros l'' Hl'' HQ''. split; [|by apply lookup_app_l].
        intros [?| ->]; [done|lia].
Qed.

(** From the state after the loops of a node to the result of the call. *)
Lemma node_post Q X memo h l o e o' memo' h' :
  inv Q X memo h → h0 !! l = Some o →
  length (h ++ [e]) ≤ length h' →
  (∀ l', l' < length (h ++ [e]) → l' ≠ length h → h' !! l' = (h ++ [e]) !! l') →
  h' !! length h = Some o' →
  obj_rel (copy_of (λ q, Q q ∨ q = length h) h') o o' →
  inv (λ q, Q q ∨ q = length h) (holds o) memo' h' →
  memo_grown (λ q, Q q ∨ q = length h) (<[l := length h]> memo) (h ++ [e]) memo' h' →
  post Q memo h (RObj l) (RObj (length h), memo', h').
Proof.
  intros (Hlen & Hold & HQ & Hfresh & Hmemo) Ho Hlen' Hsame Ho' Hrel Hinv' Hgrown.
  rewrite length_app in Hlen', Hsame. cbn in Hlen', Hsame.
  assert (HnQ : ¬ Q (length h)) by (intros Hq; specialize (HQ _ Hq); lia).
  assert (Hcopy : copy_of Q h' (RObj l) (RObj (length h))).
  { eapply (node_copied Q (λ q, Q q ∨ q = length h)); eauto. lia. }
  assert (Hweaken : ∀ x v, copy_of (λ q, Q q ∨ q = length h) h' x v → copy_of Q h' x v).
  { intros x v Hxv. eapply copy_of_mono; [exact Hxv|].
    intros h2 Hh2 l' Hl' HQ'. apply Hh2; [done|]. intros Hq. apply HQ'. by left. }
  unfold post. cbn. split; [lia|]. split; [|split; [lia|split; [done|split]]].
  - intros l' Hl'. rewrite Hsame by lia. by apply lookup_app_l.
  - by destruct Hinv' as (_ & _ & _ & ? & _).
  - intros l' y' Hy'. destruct (Hgrown l' y' Hy') as [Hy1|[Hr Hd]].
    + apply lookup_insert_Some in Hy1 as [[<- <-]|[_ Hy1]]; [right|by left].
      split; [lia|done].
    + right. rewrite length_app in Hr. cbn in Hr. split; [lia|]. by apply Hweaken.
Qed.

(** [deepcopy] returns, and returns a copy, on every value that is a
    finite tree in [h0]. *)
Theorem deepcopy_copies n : copies n (deepcopy n).
Proof.
  induction n as [|n IH]; intros Q X x memo h Hx Hsome Hinv.
  all: assert (Hatom : (∀ l, x ≠ RObj l) →
         ∃ r, Some (x, memo, h) = Some r ∧ post Q memo h x r).
  1,3: (intros Hne; eexists; split; [done|]; unfold post; cbn;
        split; [done|]; split; [done|]; split; [by destruct x; try destruct (Hne l)|];
        split; [|split; [by destruct Hinv as (_ & _ & _ & ? & _)|by left]];
        intros k t Ht h2 _; destruct x, k; try done; by destruct (Hne l)).
  - destruct x; try (apply Hatom; done). by destruct Hsome.
  - destruct x as [| | | |l]; try (apply Hatom; done). clear Hatom.
    cbn [deepcopy]. destruct (memo !! l) as [y|] eqn:Hm.
    { exists (RObj y, memo, h). split; [done|].
      pose proof Hinv as (_ & _ & _ & Hfresh & Hmemo).
      destruct (Hmemo l y Hm) as [Hfy [[_ Hdeep]|Hdone]].
      - destruct (deeper_irrefl l (S n) (Hdeep _ Hx) Hsome).
      - unfold post. cbn. split; [done|]. split; [done|]. split; [exact Hfy|].
        split; [done|]. split; [done|]. intros ???. by left. }
    destruct Hsome as [t Ht]. apply reify_obj_Some in Ht as (o & Ho & Ht).
    pose proof Hinv as (_ & Hold & _).
    rewrite (Hold l) by (by eapply lookup_lt_Some). rewrite Ho.
    assert (Hkids : ∀ c, holds o c → holds o c ∧ is_Some (reify n h0 c)).
    { intros c Hc. split; [done|]. by eapply reify_obj_holds. }
    destruct o as [elems|cls items attrs].
    + pose proof (inv_node Q X memo h l _ (OList []) Hinv Hx Ho) as Hinv1.
      destruct (copy_elems_ok n (deepcopy n) _ _ (length h) IH
                  (or_intror eq_refl) (proj1 Hinv) elems _ _ []
                  ltac:(apply Forall_forall; intros c Hc; by apply Hkids)
                  (Hinv1 ltac:(by intros c ?%elem_of_nil))
                  (list_lookup_middle h [] (OList []) (length h) eq_refl))
        as (vs & memo' & h' & Hloop & Hlen' & Hsame' & Ho' & Hrel & Hinv' & Hgrown).
      rewrite Hloop. cbn. eexists. split; [done|].
      eapply node_post; eauto.
    + assert (Hnone : ∀ c, ¬ holds (OMap cls ∅ ∅) c).
      { intros c [[k Hk]|[k Hk]]; by rewrite lookup_empty in Hk. }
      pose proof (inv_node Q X memo h l _ (OMap cls ∅ ∅) Hinv Hx Ho Hnone) as Hinv1.
      destruct (copy_entries_ok n (deepcopy n) _ _ (length h) Attr fill_attrs
                  ltac:(by intros key v cm [|???]; cbn; rewrite ?insert_union_l)
                  ltac:(by intros [|???]; cbn; rewrite ?(left_id_L ∅ (∪)))
                  IH (or_intror eq_refl) (proj1 Hinv) _ _ _ Hinv1
                  (list_lookup_middle h [] (OMap cls ∅ ∅) (length h) eq_refl) attrs
                  ltac:(intros key c Hc; apply Hkids; cbn; eauto))
        as (ca & memo1 & h1 & Hloop1 & Hlen1 & Hsame1 & Ho1 & Hrel1 & Hinv1' & Hgrown1).
      destruct (copy_entries_ok n (deepcopy n) _ _ (length h) Item fill_items
                  ltac:(by intros key v cm [|???]; cbn; rewrite ?insert_union_l)
                  ltac:(by intros [|???]; cbn; rewrite ?(left_id_L ∅ (∪)))
                  IH (or_intror eq_refl) (proj1 Hinv) _ _ _ Hinv1' Ho1 items
                  ltac:(intros key c Hc; apply Hkids; cbn; eauto))
        as (ci & memo2 & h2 & Hloop2 & Hlen2 & Hsame2 & Ho2 & Hrel2 & Hinv2 & Hgrown2).
      rewrite Hloop1, Hloop2. cbn. eexists. split; [done|].
      assert (Hsame2' : ∀ l', l' < length h1 → ¬ (Q l' ∨ l' = length h) →
                              h2 !! l' = h1 !! l').
      { intros l' Hl' HQ'. apply Hsame2; [done|]. intros ->. apply HQ'. by right. }
      eapply (node_post Q X memo h l _ (OMap cls ∅ ∅)); eauto.
      * lia.
      * intros l' Hl' Hne. rewrite Hsame2; [by apply Hsame1|lia|done].
      * cbn. rewrite !(right_id_L ∅ (∪)). split; [done|]. split; [done|].
        intros key. specialize (Hrel1 key).
        destruct (attrs !! key), (ca !! key); try done.
        eapply copy_of_mono; [exact Hrel1|].
        intros h3. apply frame_grow; [done|]. auto.
      * by eapply memo_grown_trans.
Qed.
End Deepcopy.
End StoreFacts.

(** *** [Filter.transform_filtering] *)
Section TransformFiltering.
Import Store StoreFacts.
#[local] Open Scope nat_scope.

(** Objects reachable from a fresh value in a store whose new objects
    hold fresh values only are new. *)
Lemma reach_fresh h0 h v l :
  (∀ l o c, length h0 ≤ l → h !! l = Some o → holds o c → fresh h0 h c) →
  reach h v l → fresh h0 h v → length h0 ≤ l.
Proof.
  intros Hfresh. induction 1 as [l|l o x l' Ho Hx _ IH]; cbn; [lia|].
  intros Hl. apply IH. eapply Hfresh; [|exact Ho|exact Hx]. lia.
Qed.

(** The dict behind a tree read from a dict object has the object's keys. *)
Lemma reify_obj_keys f g cls items attrs cls' items' attrs' t :
  reify_obj f (OMap cls items attrs) = Some t →
  reify_obj g (OMap cls' items' attrs') = Some t →
  cls' = cls ∧ ∀ key, is_Some (items' !! key) ↔ is_Some (items !! key).
Proof.
  cbn. intros (I & [HI ->]%reify_map_Some & (A & _ & [= <-])%bind_Some)%bind_Some.
  intros (I' & [HI' ->]%reify_map_Some & (A' & _ & [= <- Heq _])%bind_Some)%bind_Some.
  split; [done|]. intros key.
  assert (Hk : omap g items' !! key = omap f items !! key) by by rewrite Heq.
  rewrite !lookup_omap in Hk.
  destruct (items !! key) as [c|] eqn:Hc, (items' !! key) as [c'|] eqn:Hc'; cbn in Hk.
  - split; eauto.
  - destruct (HI key c Hc) as [tc Htc]. by rewrite Htc in Hk.
  - destruct (HI' key c' Hc') as [tc Htc]. by rewrite Htc in Hk.
  - split; intros [? [=]].
Qed.

(** C7: on an empty filter [transform_filtering] returns a new dict that
    is exactly [{"advanced_snippet": {}, "rules": []}].  On a non-empty
    filter it returns a copy: a new object of the filter's class with the
    filter's keys that reads as the filter does, made of objects
    allocated by the call only, none of them reachable from the filter,
    so that storing anything into an object of the copy leaves the value
    of the filter as it was.  The store the call found is left as it
    was. *)
Theorem transform_filtering_copy n h self cls items attrs :
  h !! self = Some (OMap cls items attrs) →
  (size items = 0 →
   ∃ r h',
     transform_filtering n self h = Some (r, h') ∧
     reify 2 h' r =
       Some (TMap DictClass
               {[ "advanced_snippet" := TMap DictClass ∅ ∅; "rules" := TList [] ]} ∅) ∧
     (∀ l, l < length h → h' !! l = h !! l) ∧
     (∀ l, reach h' r l → length h ≤ l)) ∧
  (size items ≠ 0 →
   ∀ t, reify n h (RObj self) = Some t →
   ∃ r h',
     transform_filtering n self h = Some (r, h') ∧
     reify n h' r = Some t ∧
     (∃ y items' attrs',
        r = RObj y ∧ h' !! y = Some (OMap cls items' attrs') ∧
        ∀ key, is_Some (items' !! key) ↔ is_Some (items !! key)) ∧
     (∀ l, l < length h → h' !! l = h !! l) ∧
     (∀ l, reach h' r l → length h ≤ l ∧ ¬ reach h (RObj self) l) ∧
     (∀ l o, reach h' r l → reify n (<[l := o]> h') (RObj self) = Some t)).
Proof.
  intros Hself. unfold transform_filtering. rewrite Hself. split.
  - intros ->. cbn [Nat.eqb]. eexists _, _. split; [done|].
    assert (H0 : ∀ a b c : obj, (h ++ [a; b; c]) !! length h = Some a).
    { intros. by apply list_lookup_middle. }
    assert (H1 : ∀ a b c : obj, (h ++ [a; b; c]) !! S (length h) = Some b).
    { intros. rewrite (lookup_app_r h) by lia.
      by replace (S (length h) - length h) with 1 by lia. }
    assert (H2 : ∀ a b c : obj, (h ++ [a; b; c]) !! S (S (length h)) = Some c).
    { intros. rewrite (lookup_app_r h) by lia.
      by replace (S (S (length h)) - length h) with 2 by lia. }
    split; [|split].
    + apply reify_obj_Some. eexists. split; [apply H2|]. cbn [reify_obj].
      assert (Hitems : reify_map
                (reify 1 (h ++ [OMap DictClass ∅ ∅; OList [];
                                OMap DictClass {[ "advanced_snippet" := RObj (length h);
                                                  "rules" := RObj (S (length h)) ]} ∅]))
                {[ "advanced_snippet" := RObj (length h); "rules" := RObj (S (length h)) ]}
              = Some {[ "advanced_snippet" := TMap DictClass ∅ ∅; "rules" := TList [] ]}).
      { apply reify_map_Some. split.
        - intros key c [[_ <-]|[_ [_ <-]%lookup_singleton_Some]]%lookup_insert_Some;
            cbn [reify]; rewrite ?H0, ?H1; by eexists.
        - rewrite omap_insert, omap_singleton. cbn [reify]. rewrite H0, H1. done. }
      rewrite Hitems. cbn [mbind option_bind]. rewrite (proj2 (reify_map_Some _ ∅ ∅)); [done|]. split; [apply map_Forall_empty|]. by rewrite omap_empty.
    + intros l Hl. by apply lookup_app_l.
    + intros l Hreach.
      assert (Hge : ∀ x l, reach (h ++ [OMap DictClass ∅ ∅; OList [];
                      OMap DictClass {[ "advanced_snippet" := RObj (length h);
                                        "rules" := RObj (S (length h)) ]} ∅]) x l →
                    (∀ y, x = RObj y → length h ≤ y) → length h ≤ l).
      { clear. induction 1 as [l|l o x l' Ho Hx _ IH]; intros Hy; [by apply Hy|].
        apply IH. intros y ->. specialize (Hy l eq_refl).
        apply lookup_lt_Some in Ho as Hlt. rewrite length_app in Hlt. cbn in Hlt.
        rewrite lookup_app_r in Ho by done.
        destruct (l - length h) as [|[|[|?]]] eqn:Hd; cbn in Ho; try lia;
          injection Ho as <-; cbn in Hx.
        - destruct Hx as [[k Hk]|[k Hk]]; by rewrite lookup_empty in Hk.
        - by apply elem_of_nil in Hx.
        - destruct Hx as [[k Hk]|[k Hk]]; [|by rewrite lookup_empty in Hk].
          apply lookup_insert_Some in Hk as [[_ [= <-]]|[_ [_ [= <-]]%lookup_singleton_Some]];
            lia. }
      apply (Hge _ _ Hreach). intros y [= <-]. lia.
  - intros Hsize t Ht. apply Nat.eqb_neq in Hsize. rewrite Hsize.
    destruct (deepcopy_copies h n (λ _, False) (λ x, x = RObj self) (RObj self) ∅ h)
      as ([[r memo'] h'] & Hcopy & Hlen & Hsame & Hr & Hcopy_of & Hfresh & _);
      [done|by eexists| |].
    { split; [done|]. split; [done|]. split; [done|]. split; [|done].
      intros l o c Hl Ho. apply lookup_lt_Some in Ho. lia. }
    cbn in *. rewrite Hcopy. cbn. exists r, h'. split; [done|].
    assert (Hread : reify n h' r = Some t).
    { apply (Hcopy_of n t Ht). by intros l _ _. }
    assert (Hnew : ∀ l, reach h' r l → length h ≤ l).
    { intros l Hl. by eapply reach_fresh. }
    split; [done|]. split; [|split; [done|split]].
    + destruct n; [done|]. apply reify_obj_Some in Ht as (o & Ho & Ht).
      assert (o = OMap cls items attrs) as -> by congruence.
      assert (Ht' := Ht). cbn in Ht'.
      apply bind_Some in Ht' as (I & _ & (A & _ & [= <-])%bind_Some).
      destruct r as [| | | |y]; try done.
      apply reify_obj_Some in Hread as (o' & Ho' & Hread).
      destruct o' as [elems'|cls' items' attrs'].
      { cbn in Hread. by apply fmap_Some in Hread as (? & _ & ?). }
      destruct (reify_obj_keys _ _ _ _ _ _ _ _ _ Ht Hread) as [-> Hkeys].
      by exists y, items', attrs'.
    + intros l Hl. split; [by apply Hnew|]. intros Hold.
      pose proof (reach_in_store _ _ _ Hold _ _ Ht). specialize (Hnew l Hl). lia.
    + intros l o Hl. eapply reify_sub; [|exact Ht].
      intros l' o' Ho'. apply lookup_lt_Some in Ho' as Hlt.
      rewrite list_lookup_insert_ne by (specialize (Hnew l Hl); lia).
      rewrite Hsame by done. done.
Qed.
End TransformFiltering.

Lemma transform_filtering_copy_witness :
  ∃ r h',
    Store.transform_filtering 3 4 Samples.heap = Some (r, h') ∧
    Store.reify 3 h' r = Store.reify 3 Samples.heap (Store.RObj 4) ∧
    (∀ l, Store.reach h' r l → (5 ≤ l)%nat).
Proof.
  destruct (proj2 (transform_filtering_copy 3 Samples.heap 4 _ _ _ eq_refl))
    with (t := default Store.TNone (Store.reify 3 Samples.heap (Store.RObj 4)))
    as (r & h' & Hrun & Hread & _ & _ & Hnew & _).
  - vm_compute. discriminate.
  - vm_compute. reflexivity.
  - exists r, h'. split; [exact Hrun|]. split.
    + rewrite Hread. vm_compute. reflexivity.
    + intros l Hl. apply (Hnew l Hl).
Defined.

(** ** Facts about the runs of [get_docs] *)
Module JiraFacts.
Import Jira.
#[local] Open Scope nat_scope.

Lemma count_app {A} (test : A → bool) l1 l2 :
  count test (l1 ++ l2) = count test l1 + count test l2.
Proof. induction l1 as [|x l1 IH]; cbn; [done|]. rewrite IH. lia. Qed.

Lemma count_le_length {A} (test : A → bool) l : count test l ≤ length l.
Proof. induction l as [|x l IH]; cbn; [done|]. destruct (test x); cbn; lia. Qed.

Lemma count_all {A} (test : A → bool) l :
  count test l = length l → Forall (λ x, test x = true) l.
Proof.
  induction l as [|x l IH]; cbn; [done|]. intros Hc.
  pose proof (count_le_length test l).
  destruct (test x) eqn:Hx; cbn in Hc; [|lia]. constructor; [done|]. apply IH. lia.
Qed.

Lemma sentinels_snoc q x : sentinels (q ++ [x]) = sentinels q + Nat.b2n (is_FINISHED x).
Proof. unfold sentinels. rewrite count_app. cbn. lia. Qed.

(** What is waiting in the producers is no sentinel. *)
Definition pending_ok (p : producer) : Prop :=
  match p with
  | Producing pending _ => Forall (λ x, is_FINISHED x = false) pending
  | Finished => True
  end.

(** The invariant of the counters. *)
Definition counted (s : state) : Prop :=
  tasks s = (Z.of_nat (started s) - Z.of_nat (seen s))%Z ∧
  seen s + sentinels (queue s) = finished s ∧
  Forall (λ x, is_FINISHED x = false) (yielded s) ∧
  pending_ok (project_task s) ∧
  Forall pending_ok (fetchers s) ∧
  (consuming s = false → seen s = started s) ∧
  (finished s = started s →
   match last (queue s) with Some x => is_FINISHED x = true | None => True end).

Lemma finished_le_started s : finished s ≤ started s.
Proof.
  unfold finished, started.
  pose proof (count_le_length is_Finished (fetchers s)).
  destruct (is_Finished _), (is_DFinished _); cbn [Nat.b2n]; lia.
Qed.

Section Runs.
Context (F : feed) (fits : list qitem → qitem → bool).

Lemma counted_init : counted (init F).
Proof.
  unfold counted, init, started, finished. cbn. split_and!; try done.
  by apply Forall_fmap, Forall_forall.
Qed.

Lemma after_document_unfinished i rest e : is_DFinished (after_document i rest e) = false.
Proof. unfold after_document. by destruct (attachment i) as [[|??]|]. Qed.

Lemma grab_content_unfinished attachments issue_key :
  is_Finished (grab_content_of F attachments issue_key) = false.
Proof. done. Qed.

Lemma grab_content_pending_ok attachments issue_key :
  pending_ok (grab_content_of F attachments issue_key).
Proof. cbn. by apply Forall_fmap, Forall_forall. Qed.

Lemma counted_step s s' : counted s → step F fits s s' → counted s'.
Proof.
  intros (Ht & Hs & Hy & Hp & Hf & Hc & Hl) Hstep.
  destruct Hstep; unfold counted, started, finished, sentinels in *; cbn in *;
    rewrite ?after_document_unfinished in *;
    repeat match goal with
           | H : Forall _ (_ :: _) |- _ => apply Forall_cons in H as [? ?]
           | H : Forall _ (_ ++ _) |- _ => apply Forall_app in H as [? ?]
           | H : pending_ok (Producing _ _) |- _ => cbn [pending_ok] in H
           end;
    rewrite ?count_app, ?length_app, ?last_snoc, ?Forall_app, ?Forall_cons in *;
    cbn [count length Nat.b2n is_Finished is_DFinished pending_ok is_FINISHED] in *;
    rewrite ?grab_content_unfinished in *;
    change (is_FINISHED FINISHED) with true in *;
    repeat match goal with
           | |- context [count is_Finished ?l] =>
               lazymatch goal with
               | _ : count is_Finished l ≤ length l |- _ => fail
               | _ => pose proof (count_le_length is_Finished l)
               end
           end;
    repeat match goal with
           | H : is_FINISHED ?x = _ |- _ => rewrite H in *
           end;
    cbn [Nat.b2n] in *.
  all: split_and!; try done; try lia;
    try (intros; exfalso; destruct (is_Finished p); cbn [Nat.b2n] in *; lia);
    try (intros; exfalso; destruct (is_DFinished d); cbn [Nat.b2n] in *; lia);
    try (intros; exfalso; destruct (is_Finished p), (is_DFinished d);
         cbn [Nat.b2n] in *; lia);
    try (intros; destruct (is_Finished p), (is_DFinished d);
         cbn [Nat.b2n] in *; lia);
    try apply grab_content_pending_ok;
    try (apply Forall_cons_2; [reflexivity|apply Forall_nil_2]);
    try (destruct q as [|? ?]; [done|]; by rewrite last_cons_cons in Hl).
  intros Hcf. specialize (Hc Hcf). exfalso.
  destruct (is_Finished p); cbn [Nat.b2n] in *; lia.
Qed.

Lemma counted_reachable s : reachable F fits s → counted s.
Proof.
  revert s. apply rtc_ind_r; [apply counted_init|].
  intros s s' _ Hstep Hs. by eapply counted_step.
Qed.

(** Every generator ends, and without raising: the streams of the feed are
    all exhausted, and every issue has its list of attachments. *)
Definition issue_sound (i : issue) : Prop :=
  match attachment i with
  | None => False
  | Some attachments =>
      attachments = [] ∨ ends (get_attachments F attachments (key i)) = Exhausted
  end.

Definition feed_sound : Prop :=
  ends (get_projects F) = Exhausted ∧
  ends (get_issues F) = Exhausted ∧
  Forall issue_sound (yields (get_issues F)).

Definition producer_sound (p : producer) : Prop :=
  match p with
  | Producing _ e => e = Exhausted
  | Finished => True
  end.

Definition document_sound (d : document_producer) : Prop :=
  match d with
  | DPut issues e => e = Exhausted ∧ Forall issue_sound issues
  | DSpawn attachments issue_key issues e =>
      e = Exhausted ∧ Forall issue_sound issues ∧
      ends (get_attachments F attachments issue_key) = Exhausted
  | DFinished => True
  end.

Definition sound (s : state) : Prop :=
  producer_sound (project_task s) ∧
  document_sound (document_task s) ∧
  Forall producer_sound (fetchers s).

(** Weights: in a run whose generators all end, each step takes one off the
    weight of the state. *)
Definition producer_weight (p : producer) : nat :=
  match p with
  | Producing pending _ => 2 * S (length pending)
  | Finished => 0
  end.

Definition grab_weight (attachments : list value) (issue_key : string) : nat :=
  2 * S (length (yields (get_attachments F attachments issue_key))).

Definition issue_weight (i : issue) : nat :=
  2 + match attachment i with
      | Some (a :: l) => 2 + grab_weight (a :: l) (key i)
      | _ => 0
      end.

Definition document_weight (d : document_producer) : nat :=
  match d with
  | DPut issues _ => sum_list (issue_weight <$> issues) + 2
  | DSpawn attachments issue_key issues _ =>
      2 + grab_weight attachments issue_key + sum_list (issue_weight <$> issues) + 2
  | DFinished => 0
  end.

Definition weight (s : state) : nat :=
  length (queue s) + producer_weight (project_task s) +
  document_weight (document_task s) +
  sum_list (producer_weight <$> fetchers s) +
  Nat.b2n (consuming s).

Lemma after_document_weight i rest e :
  document_weight (after_document i rest e) + 2 ≤
  issue_weight i + document_weight (DPut rest e).
Proof.
  unfold after_document, issue_weight.
  destruct (attachment i) as [[|a l]|]; cbn [document_weight sum_list fmap list_fmap];
    generalize (sum_list (issue_weight <$> rest)); intros W; lia.
Qed.

Lemma step_weight s s' : sound s → step F fits s s' → weight s' < weight s.
Proof.
  intros (Hp & Hd & Hf) Hstep.
  destruct Hstep; unfold weight; cbn [queue project_task document_task fetchers consuming];
    try (cbn in Hp; discriminate); try (cbn in Hd; by destruct Hd);
    try (apply Forall_app in Hf as [_ [Hg _]%Forall_cons]; cbn in Hg; discriminate);
    rewrite ?fmap_app, ?sum_list_with_app, ?length_app, ?fmap_cons;
    cbn [length producer_weight document_weight sum_list sum_list_with fmap list_fmap Nat.b2n];
    unfold Datatypes.id; try lia.
  - pose proof (after_document_weight i rest e) as Hw.
    cbn [document_weight] in Hw. unfold sum_list, Datatypes.id in *. lia.
  - unfold grab_content_of, grab_weight. cbn [producer_weight].
    rewrite length_fmap. lia.
Qed.


Lemma sound_init : feed_sound → sound (init F).
Proof. intros (Hp & Hi & His). unfold sound, init. cbn. rewrite Hp. auto. Qed.

Lemma sound_step s s' : sound s → step F fits s s' → sound s'.
Proof.
  intros (Hp & Hd & Hf) Hstep.
  destruct Hstep; unfold sound in *; cbn in *; try (by destruct Hd); split_and!; try done;
    try (apply Forall_app in Hf as [Hf1 [Hx Hf2]%Forall_cons];
         apply Forall_app; split; [done|]; by constructor).
  - destruct Hd as [-> [Hi Hrest]%Forall_cons]. unfold after_document, issue_sound in *.
    destruct (attachment i) as [[|a l]|]; cbn; [done| |done].
    by destruct Hi as [[=]|Hi].
  - by destruct Hd as (? & ? & _).
  - by destruct Hd as (? & ? & _).
  - destruct Hd as (_ & _ & Hg). apply Forall_app. split; [done|].
    constructor; [|done]. cbn. by rewrite Hg.
Qed.

Lemma count_pos_split {A} (test : A → bool) l :
  0 < count test l → ∃ l1 x l2, l = l1 ++ x :: l2 ∧ test x = true.
Proof.
  induction l as [|x l IH]; cbn; [lia|]. destruct (test x) eqn:Hx.
  - intros _. by exists [], x, l.
  - intros Hc. destruct IH as (l1 & x' & l2 & -> & Hx'); [cbn in Hc; lia|].
    by exists (x :: l1), x', l2.
Qed.

Lemma count_lt_split {A} (test : A → bool) l :
  count test l < length l → ∃ l1 x l2, l = l1 ++ x :: l2 ∧ test x = false.
Proof.
  induction l as [|x l IH]; cbn; [lia|]. destruct (test x) eqn:Hx.
  - intros Hc. destruct IH as (l1 & x' & l2 & -> & Hx'); [cbn in Hc; lia|].
    by exists (x :: l1), x', l2.
  - intros _. by exists [], x, l.
Qed.

(** A producer that is sound and has not raised or returned can put. *)
Lemma grab_steps q t p d f1 g f2 y c n :
  (∀ x, fits q x = true) → producer_sound g → is_Finished g = false →
  ∃ s', step F fits (State q t p d (f1 ++ g :: f2) y c n) s'.
Proof.
  intros Hq Hg Hfin. destruct g as [[|x pending] e|]; [| |done]; cbn in Hg; subst.
  - eexists. by apply grab_finish.
  - eexists. by apply grab_put.
Qed.

(** While the loop runs, a run in which nothing raises can go on. *)
Lemma progress s :
  (∀ x, fits [] x = true) → counted s → sound s → consuming s = true →
  ∃ s', step F fits s s'.
Proof.
  intros Hfits (Ht & Hs & _ & _ & _ & _ & _) (Hp & Hd & Hf) Hc.
  destruct s as [q t p d f y c n]. cbn in *. subst c.
  destruct (decide (0 < t)%Z) as [Hpos|Hneg]; [|eexists; by apply consume_exit].
  destruct q as [|item q].
  2:{ destruct (is_FINISHED item) eqn:Hitem; eexists;
        [by apply consume_sentinel|by apply consume_item]. }
  unfold started, finished, sentinels in *. cbn in *.
  destruct p as [[|x pending] e|]; cbn in Hp; subst.
  { eexists. by apply project_finish. }
  { eexists. by apply project_put. }
  destruct d as [[|i rest] e|attachments issue_key rest e|]; cbn in Hd.
  - destruct Hd as [-> _]. eexists. by apply document_finish.
  - eexists. by apply document_put.
  - destruct (decide (count running f < MAX_CONCURRENCY)) as [Hfree|Hfull].
    { eexists. by apply document_spawn. }
    destruct (count_pos_split running f) as (f1 & g & f2 & -> & Hg).
    { unfold MAX_CONCURRENCY in Hfull. lia. }
    apply Forall_app in Hf as [_ [Hgs _]%Forall_cons].
    apply grab_steps; [done..|]. by destruct g as [[|??] []|].
  - destruct (count_lt_split is_Finished f) as (f1 & g & f2 & -> & Hg).
    { pose proof (count_le_length is_Finished f). cbn in Hs. lia. }
    apply Forall_app in Hf as [_ [Hgs _]%Forall_cons].
    by apply grab_steps.
Qed.
End Runs.
End JiraFacts.

(** *** The sentinels of [JiraDataSource.get_docs] *)
Section GetDocs.
Import Jira JiraFacts.
#[local] Open Scope nat_scope.
Context (F : feed) (fits : list qitem → qitem → bool).

Lemma all_finished s :
  finished s = started s →
  project_task s = Finished ∧ document_task s = DFinished ∧
  Forall (λ g, g = Finished) (fetchers s).
Proof.
  unfold finished, started.
  pose proof (count_le_length is_Finished (fetchers s)) as Hle.
  destruct (project_task s) as [? ?|], (document_task s) as [? ?|? ? ? ?|];
    cbn [is_Finished is_DFinished Nat.b2n]; try lia.
  intros Hc. split; [done|]. split; [done|].
  eapply Forall_impl; [apply (count_all is_Finished); lia|].
  by intros [|].
Qed.

(** In a run in which nothing raises, the loop is left. *)
Lemma loop_is_left n : ∀ s,
  weight F s ≤ n →
  (∀ x, fits [] x = true) → counted s → sound F s →
  ∃ s', rtc (step F fits) s s' ∧ consuming s' = false.
Proof.
  induction n as [|n IH]; intros s Hn Hfits Hcounted Hsound;
    (destruct (consuming s) eqn:Hc; [|by exists s]).
  - destruct s as [???????]. unfold weight in Hn. cbn in *. subst. cbn in Hn. lia.
  - destruct (progress F fits s Hfits Hcounted Hsound Hc) as [s1 Hstep].
    pose proof (step_weight F fits _ _ Hsound Hstep).
    destruct (IH s1) as (s' & Hrun & Hleft); [lia|done| | |].
    + by eapply counted_step.
    + by eapply sound_step.
    + exists s'. split; [|done]. by eapply rtc_l.
Qed.

(** A run of a feed whose generators all end is sound throughout. *)
Lemma sound_reachable s : feed_sound F → reachable F fits s → sound F s.
Proof.
  intros Hfeed. revert s. apply rtc_ind_r; [by apply sound_init|].
  intros s s' _ Hstep Hs. by eapply sound_step.
Qed.

(** A producer whose generator raises: it has raised or will raise, and
    returns without its sentinel. *)
Definition producer_fails (p : producer) : Prop :=
  match p with
  | Producing _ Raises => True
  | _ => False
  end.

(** [_document_task] raises when fetching the issues does, and at the
    first issue whose attachments cannot be read. *)
Definition document_fails (d : document_producer) : Prop :=
  match d with
  | DPut issues e | DSpawn _ _ issues e =>
      e = Raises ∨ Exists (λ i, attachment i = None) issues
  | DFinished => False
  end.

(** A producer that has been started raises. *)
Definition fails (s : state) : Prop :=
  producer_fails (project_task s) ∨ document_fails (document_task s) ∨
  Exists producer_fails (fetchers s).

(** Fetching the projects or the issues raises. *)
Definition feed_fails : Prop :=
  ends (get_projects F) = Raises ∨ ends (get_issues F) = Raises ∨
  Exists (λ i, attachment i = None) (yields (get_issues F)).

Lemma fails_init : feed_fails → fails (init F).
Proof.
  unfold feed_fails, fails, init. cbn. intros [Hp|[Hi|Hi]]; [|auto..].
  left. by rewrite Hp.
Qed.

Lemma fails_step s s' : fails s → step F fits s s' → fails s'.
Proof.
  intros Hfails Hstep.
  destruct Hstep; unfold fails in *;
    cbn [project_task document_task fetchers producer_fails document_fails] in *;
    rewrite ?Exists_app, ?Exists_cons, ?Exists_nil in *;
    cbn [producer_fails] in *; try tauto.
  - (* document_put *)
    destruct Hfails as [?|[[->|[Hi|Hrest]]|?]]; [tauto| | | |tauto];
      right; left; unfold after_document;
      destruct (attachment i) as [[|a l]|]; cbn [document_fails]; auto; done.
  - (* document_finish *)
    destruct Hfails as [?|[[?|?]|?]]; [tauto|done|done|tauto].
  - (* document_more *)
    destruct Hfails as [?|[[?|?]|?]]; [tauto|done|done|tauto].
Qed.

Lemma fails_unfinished s : fails s → finished s < started s.
Proof.
  unfold fails, finished, started.
  pose proof (count_le_length is_Finished (fetchers s)) as Hle.
  intros [Hp|[Hd|Hf]].
  - destruct (project_task s) as [? ?|]; [|done].
    destruct (is_DFinished _); cbn [is_Finished Nat.b2n]; lia.
  - destruct (document_task s) as [? ?|? ? ? ?|]; [| |done];
      destruct (is_Finished _); cbn [is_DFinished Nat.b2n]; lia.
  - assert (count is_Finished (fetchers s) < length (fetchers s)).
    { clear Hle. induction Hf as [g f Hg|g f _ IH].
      - pose proof (count_le_length is_Finished f).
        destruct g as [? ?|]; [|done]. cbn. lia.
      - cbn. destruct (is_Finished g); cbn; lia. }
    destruct (is_Finished _), (is_DFinished _); cbn [Nat.b2n]; lia.
Qed.

(** Once a producer that raises has been started, the loop is never left:
    a sentinel is missing for good. *)
Lemma raising_producer_hangs s s' :
  reachable F fits s → fails s → rtc (step F fits) s s' →
  fails s' ∧ finished s' < started s' ∧ (0 < tasks s')%Z ∧ consuming s' = true.
Proof.
  intros Hreach Hfails Hrun.
  assert (fails s') as Hfails'.
  { clear Hreach. induction Hrun as [|s1 s2 s3 Hstep _ IH]; [done|].
    apply IH. by eapply fails_step. }
  assert (counted s') as (Ht & Hs & _ & _ & _ & Hc & _).
  { apply (counted_reachable F fits). unfold reachable in *. by etrans. }
  pose proof (fails_unfinished s' Hfails') as Hlt.
  split; [done|]. split; [done|]. split; [lia|].
  destruct (consuming s'); [done|]. specialize (Hc eq_refl). lia.
Qed.

(** C5 (code): in every state of a run of [get_docs], the counter is the
    number of producers started less the sentinels taken; the sentinels put
    so far are one for each producer that has returned and none else;
    nothing yielded is a sentinel; and when the loop is left every producer
    started has returned and the queue is empty.  A producer returns, and
    puts its sentinel, only when its generator is exhausted: once a
    producer whose generator raises has been started, a sentinel is missing
    in every later state, the counter stays positive and the loop is never
    left.  So it is in every run of a feed whose projects or issues cannot
    be fetched.  When every generator ends without raising and an empty
    queue fits every item, the loop is left: each step takes one off the
    weight of the state, and while the loop runs a step is possible. *)
Theorem get_docs_sentinels s :
  reachable F fits s →
  tasks s = (Z.of_nat (started s) - Z.of_nat (seen s))%Z ∧
  seen s + sentinels (queue s) = finished s ∧
  finished s ≤ started s ∧
  Forall (λ item, is_FINISHED item = false) (yielded s) ∧
  (¬ (0 < tasks s)%Z ↔ seen s = started s) ∧
  (consuming s = false →
   seen s = started s ∧ queue s = [] ∧
   project_task s = Finished ∧ document_task s = DFinished ∧
   Forall (λ g, g = Finished) (fetchers s)) ∧
  (fails s → ∀ s', rtc (step F fits) s s' →
     fails s' ∧ finished s' < started s' ∧ (0 < tasks s')%Z ∧ consuming s' = true) ∧
  (feed_fails →
     finished s < started s ∧ (0 < tasks s)%Z ∧ consuming s = true) ∧
  (feed_sound F → (∀ x, fits [] x = true) →
   (∀ s', step F fits s s' → weight F s' < weight F s) ∧
   (consuming s = true → ∃ s', step F fits s s') ∧
   (∃ s', rtc (step F fits) s s' ∧ consuming s' = false)).
Proof.
  intros Hreach. pose proof (counted_reachable F fits s Hreach) as Hcounted.
  pose proof Hcounted as (Ht & Hs & Hy & _ & _ & Hc & Hl).
  pose proof (finished_le_started s) as Hle.
  split; [done|]. split; [done|]. split; [done|]. split; [done|].
  split; [|split; [|split; [|split]]].
  - rewrite Ht. split; lia.
  - intros Hleft. specialize (Hc Hleft).
    assert (Hall : finished s = started s) by lia.
    split; [done|]. split; [|by apply all_finished].
    specialize (Hl Hall). destruct (queue s) as [|x q] eqn:Hq using rev_ind; [done|].
    rewrite last_snoc in Hl. rewrite sentinels_snoc, Hl in Hs. cbn in Hs. lia.
  - intros Hfails s' Hrun. by apply (raising_producer_hangs s s').
  - intros Hfeed.
    destruct (raising_producer_hangs (init F) s) as (_ & H); [apply rtc_refl| |done|done].
    by apply fails_init.
  - intros Hfeed Hfits.
    pose proof (sound_reachable s Hfeed Hreach) as Hsound.
    split; [intros s'; by apply step_weight|].
    split; [by apply progress|]. by eapply loop_is_left.
Qed.
End GetDocs.

Lemma get_docs_sentinels_witness :
  Jira.tasks (Jira.init Samples.sample_feed) = 2 ∧
  (∃ s', rtc (Jira.step Samples.sample_feed (λ _ _, true)) (Jira.init Samples.sample_feed) s' ∧
         Jira.consuming s' = false) ∧
  (∀ s', rtc (Jira.step Samples.failing_feed (λ _ _, true)) (Jira.init Samples.failing_feed) s' →
         Jira.consuming s' = true).
Proof.
  destruct (get_docs_sentinels Samples.sample_feed (λ _ _, true) (Jira.init Samples.sample_feed))
    as (Ht & _ & _ & _ & _ & _ & _ & _ & Hlive).
  - apply rtc_refl.
  - split; [exact Ht|]. split.
    + apply Hlive; [|done].
      split; [reflexivity|]. split; [reflexivity|].
      constructor; [|constructor]. right. reflexivity.
    + intros s' Hrun.
      apply (get_docs_sentinels Samples.failing_feed (λ _ _, true) s' Hrun).
      left. reflexivity.
Defined.

(** C5, a failing run: when fetching the projects raises, the project
    producer is started and never puts a sentinel; after the sentinel of
    the document producer is taken the loop waits with the counter at 1,
    and no step is possible. *)
Lemma project_producer_raises :
  let s := Jira.State [] 1 (Jira.Producing [] Jira.Raises) Jira.DFinished [] [] true 1 in
  Jira.reachable Samples.failing_feed (λ _ _, true) s ∧
  Jira.project_task s = Jira.project_task_of Samples.failing_feed ∧
  Jira.started s = 2%nat ∧
  (Jira.seen s + Jira.sentinels (Jira.queue s) = 1)%nat ∧
  Jira.consuming s = true ∧
  ∀ s', ¬ Jira.step Samples.failing_feed (λ _ _, true) s s'.
Proof.
  cbn zeta. split; [|split; [done|split; [done|split; [done|split; [done|]]]]].
  - eapply rtc_l; [by apply Jira.document_finish|].
    eapply rtc_l; [by apply Jira.consume_sentinel|]. apply rtc_refl.
  - intros s' Hstep. inversion Hstep; subst; try done; try lia;
      try by destruct f1.
Qed.
